(** * answers-only: the retry orchestrator of [main.go]

    A shallow embedding of [main.go]: the two backend clients
    ([getGeminiResponse], [getGroqResponse]), the equivalence judge
    ([compareResponses]), the retry loop ([processQuestion]), the output
    formatter ([formatResponse]) and the interactive loop of [main].

    Remote services, the console and the logger are effects.  They are
    modelled by an explicit trace of events threaded through every call;
    what a remote call answers is given by an oracle that may depend on
    everything that happened before.  A Go runtime panic is a third kind of
    outcome next to a returned value and a returned [error]. *)

From Stdlib Require Import ZArith List Bool Lia Ascii String.
From Stdlib Require Import Numbers.DecimalString.
Import ListNotations.

Local Open Scope string_scope.
Local Open Scope Z_scope.

(* ================================================================= *)
(** ** Go strings and the [strings] and [fmt] functions the program uses *)

(** A Go string is a sequence of bytes, as is a Rocq [string]. *)

Definition dquote : string := String "034"%char "".
Definition nl : string := String "010"%char "".
Definition tab : string := String "009"%char "".

(** [%d] of an [int]. *)
Definition fmt_d (n : Z) : string := NilZero.string_of_int (Z.to_int n).

(** A Go [error] is known to the program only through its message;
    a nil [error] is [None].  [%v] prints the message, or [<nil>]. *)
Definition error := string.

Definition fmt_v (e : option error) : string :=
  match e with
  | Some msg => msg
  | None => "<nil>"
  end.

Definition byte_lt (c : ascii) (n : N) : bool := (N_of_ascii c <? n)%N.

(** [utf8.RuneSelf]: bytes below it are ASCII. *)
Definition RuneSelf : N := 128%N.

(** The table [asciiSpace] of package [strings]. *)
Definition asciiSpace (c : ascii) : bool :=
  match N_of_ascii c with
  | 9%N | 10%N | 11%N | 12%N | 13%N | 32%N => true
  | _ => false
  end.

Definition isUpperASCII (c : ascii) : bool :=
  let n := N_of_ascii c in ((65 <=? n) && (n <=? 90))%N.

Definition lowerASCII (c : ascii) : ascii :=
  if isUpperASCII c then ascii_of_N (N_of_ascii c + 32) else c.

Fixpoint isASCII (s : string) : bool :=
  match s with
  | "" => true
  | String c s' => byte_lt c RuneSelf && isASCII s'
  end.

Fixpoint map_bytes (f : ascii -> ascii) (s : string) : string :=
  match s with
  | "" => ""
  | String c s' => String (f c) (map_bytes f s')
  end.

Fixpoint rev_string (s : string) : string :=
  match s with
  | "" => ""
  | String c s' => rev_string s' ++ String c ""
  end.

(** The Unicode-aware slow paths of [strings.TrimSpace] and
    [strings.ToLower] need the tables of package [unicode], which are not
    part of the program; they are parameters. *)
Class Unicode := {
  (** [TrimFunc(s, unicode.IsSpace)] *)
  TrimFunc_IsSpace : string -> string;
  (** [TrimRightFunc(s, unicode.IsSpace)] *)
  TrimRightFunc_IsSpace : string -> string;
  (** [Map(unicode.ToLower, s)] *)
  Map_ToLower : string -> string
}.

Section Strings.
Context {U : Unicode}.

(** Second loop of [strings.TrimSpace], run on the reversed string: drop
    ASCII spaces from the end, hand over to [TrimRightFunc] at the first
    byte that is not ASCII.  [r] is the reversed remainder. *)
Fixpoint trim_right_rev (r : string) : string :=
  match r with
  | "" => ""
  | String c r' =>
      if negb (byte_lt c RuneSelf) then TrimRightFunc_IsSpace (rev_string r)
      else if asciiSpace c then trim_right_rev r'
      else rev_string r
  end.

(** [strings.TrimSpace]: the first loop drops ASCII spaces from the front
    and hands the rest to [TrimFunc] at a byte that is not ASCII. *)
Fixpoint TrimSpace (s : string) : string :=
  match s with
  | "" => ""
  | String c s' =>
      if negb (byte_lt c RuneSelf) then TrimFunc_IsSpace s
      else if asciiSpace c then TrimSpace s'
      else trim_right_rev (rev_string s)
  end.

(** [strings.ToLower]: ASCII-only strings are lowered byte by byte, the
    others go through [Map(unicode.ToLower, s)]. *)
Definition ToLower (s : string) : string :=
  if isASCII s then map_bytes lowerASCII s else Map_ToLower s.

End Strings.

(** Every byte of [s] is ASCII white space. *)
Fixpoint all_space (s : string) : bool :=
  match s with
  | "" => true
  | String c s' => asciiSpace c && all_space s'
  end.

(** The scan of [strings.ReplaceAll] for a non-empty [old]: from the left,
    at each occurrence of [old] write [new] and resume after the
    occurrence.  [skip] counts the bytes of the current occurrence still to
    be passed over. *)
Fixpoint replace_from (old new : string) (skip : nat) (s : string) : string :=
  match s with
  | "" => ""
  | String c s' =>
      match skip with
      | S k => replace_from old new k s'
      | O =>
          if prefix old s
          then new ++ replace_from old new (Nat.pred (String.length old)) s'
          else String c (replace_from old new 0 s')
      end
  end.

(** [strings.ReplaceAll(s, old, new)].  For an empty [old] Go writes [new]
    at every rune boundary; the model does so at every byte, and the
    program never calls it that way. *)
Definition ReplaceAll (s old new : string) : string :=
  match old with
  | "" => fold_right (fun c acc => new ++ String c acc) new (list_ascii_of_string s)
  | _ => replace_from old new 0 s
  end.

(* ================================================================= *)
(** ** Data *)

(** [MaxRetries] is a Go [int].  The loop counter stays below it, so no
    addition of the program wraps around and [Z] models it as it is. *)
Record Config := {
  GeminiKey : string;
  GroqKey : string;
  MaxRetries : Z
}.

Record Response := {
  Source : string;
  Content : string
}.

(** Groq API types. *)
Record Message := {
  Role : string;
  MessageContent : string
}.

Record GroqRequest := {
  Model : string;
  Messages : list Message
}.

Record GroqChoice := {
  ChoiceMessageContent : string
}.

Record GroqResponse := {
  Choices : list GroqChoice
}.

(** The part of package [genai] the program touches.  A [Part] is an
    interface value: [Text], or one of the other implementations.
    [Candidate.Content] is a pointer and may be nil. *)
Inductive Part :=
| Text (s : string)
| Blob (MIMEType : string) (Data : string)
| FunctionCall (Name : string).

Record GenaiContent := {
  Parts : list Part
}.

Record Candidate := {
  CandidateContent : option GenaiContent
}.

Record GenerateContentResponse := {
  Candidates : list Candidate
}.

(** The part of package [net/http] the program touches. *)
Record HttpRequest := {
  Method : string;
  URL : string;
  Header : list (string * string);
  Body : string
}.

Record HttpResponse := {
  StatusCode : Z;
  ResponseBody : string
}.

Definition StatusOK : Z := 200.

(** A Go pair [(T, error)]: the value when the error is nil, else the error. *)
Inductive result (T : Type) :=
| Val (v : T)
| Err (e : error).
Arguments Val {T} v.
Arguments Err {T} e.

(* ================================================================= *)
(** ** Effects *)

(** What the program does to the outside, newest event first.  A log
    line is its message, without the time stamp the logger puts before
    it. *)
Inductive Event :=
| EvNewClient (apiKey : string)
| EvGenerateContent (model prompt : string)
| EvHttpDo (req : HttpRequest)
| EvLog (msg : string)
| EvPrint (text : string).

Definition Trace := list Event.

(** The remote services.  Each answer may depend on the whole history. *)
Record Remote := {
  genai_NewClient : Trace -> string -> option error;
  genai_GenerateContent : Trace -> string -> string -> result GenerateContentResponse;
  http_Do : Trace -> HttpRequest -> result HttpResponse
}.

(** Library functions of [encoding/json] and [net/http] whose code is not
    part of the program. *)
Class Codec := {
  json_Marshal : GroqRequest -> result string;
  json_Decode : string -> result GroqResponse;
  http_NewRequest_error : string -> string -> option error
}.

(** How a call ends: it returns, it panics, or the model ran out of fuel
    (which [processQuestion_returns] shows never happens). *)
Inductive Res (A : Type) :=
| Done (a : A)
| Panic (msg : string)
| OutOfFuel.
Arguments Done {A} a.
Arguments Panic {A} msg.
Arguments OutOfFuel {A}.

Definition M (A : Type) := Trace -> Res A * Trace.

Definition ret {A} (a : A) : M A := fun w => (Done a, w).

Definition bind {A B} (m : M A) (k : A -> M B) : M B :=
  fun w =>
    match m w with
    | (Done a, w') => k a w'
    | (Panic msg, w') => (Panic msg, w')
    | (OutOfFuel, w') => (OutOfFuel, w')
    end.

Definition panic {A} (msg : string) : M A := fun w => (Panic msg, w).

Declare Scope go_scope.
Delimit Scope go_scope with go.
Notation "x <- m ;; k" := (bind m (fun x => k))
  (at level 61, m at next level, right associativity) : go_scope.
Notation "m ;; k" := (bind m (fun _ => k))
  (at level 61, right associativity) : go_scope.
Local Open Scope go_scope.

Definition emit (e : Event) : M unit := fun w => (Done tt, e :: w).

Definition log_Printf (msg : string) : M unit := emit (EvLog msg).
Definition fmt_Print (text : string) : M unit := emit (EvPrint text).

(** [l[0]] on a slice. *)
Definition index0 {A} (l : list A) : M A :=
  match l with
  | x :: _ => ret x
  | [] => panic "runtime error: index out of range [0] with length 0"
  end.

(** [p.f] through a pointer. *)
Definition deref {A} (p : option A) : M A :=
  match p with
  | Some x => ret x
  | None => panic "runtime error: invalid memory address or nil pointer dereference"
  end.

(** [p.(genai.Text)], the type assertion without the comma-ok form. *)
Definition assert_Text (p : Part) : M string :=
  match p with
  | Text s => ret s
  | Blob _ _ => panic "interface conversion: genai.Part is genai.Blob, not genai.Text"
  | FunctionCall _ =>
      panic "interface conversion: genai.Part is genai.FunctionCall, not genai.Text"
  end.

(** [string(resp.Candidates[0].Content.Parts[0].(genai.Text))] *)
Definition first_text (resp : GenerateContentResponse) : M string :=
  c <- index0 (Candidates resp) ;;
  content <- deref (CandidateContent c) ;;
  p <- index0 (Parts content) ;;
  assert_Text p.

(* ================================================================= *)
(** ** The program *)

Section Program.
Context {U : Unicode} {C : Codec}.
Variable remote : Remote.

(** [genai.NewClient(ctx, option.WithAPIKey(apiKey))]; [client.Close] and
    the cancellation of [ctx] are not modelled (a cancelled call is a call
    that fails). *)
Definition NewClient (apiKey : string) : M (option error) :=
  fun w => (Done (genai_NewClient remote w apiKey), EvNewClient apiKey :: w).

(** [client.GenerativeModel(model).GenerateContent(ctx, genai.Text(prompt))] *)
Definition GenerateContent (model prompt : string) : M (result GenerateContentResponse) :=
  fun w => (Done (genai_GenerateContent remote w model prompt),
            EvGenerateContent model prompt :: w).

(** [(&http.Client{}).Do(req)] *)
Definition client_Do (req : HttpRequest) : M (result HttpResponse) :=
  fun w => (Done (http_Do remote w req), EvHttpDo req :: w).

(** The prompt of [getGeminiResponse] (lines 203-210). *)
Definition gemini_enhancedPrompt (question : string) : string :=
  "If this is a multiple choice question, please:" ++ nl ++
  "1. Analyze each option carefully" ++ nl ++
  "2. Provide a clear " ++ dquote ++ "Yes" ++ dquote ++ " or " ++ dquote ++ "No" ++ dquote ++
  " for each option" ++ nl ++
  "3. Explain the reasoning for each option" ++ nl ++
  "4. At the end, summarize which options are correct" ++ nl ++
  nl ++
  "Here's the question:" ++ nl ++
  question.

Definition getGeminiResponse (question apiKey : string) : M (result Response) :=
  err <- NewClient apiKey ;;
  match err with
  | Some err => ret (Err ("failed to create Gemini client: " ++ err))
  | None =>
      let enhancedPrompt := gemini_enhancedPrompt question in
      r <- GenerateContent "gemini-pro" enhancedPrompt ;;
      match r with
      | Err err => ret (Err ("failed to generate Gemini response: " ++ err))
      | Val resp =>
          t <- first_text resp ;;
          ret (Val {| Source := "Gemini"; Content := t |})
      end
  end.

(** The prompt of [getGroqResponse] (lines 228-235). *)
Definition groq_enhancedPrompt (question : string) : string :=
  "If this is a multiple choice question, please:" ++ nl ++
  "1. Analyze each option carefully" ++ nl ++
  "2. Provide a clear " ++ dquote ++ "Yes" ++ dquote ++ " or " ++ dquote ++ "No" ++ dquote ++
  " for each option" ++ nl ++
  "3. Explain the reasoning for each option" ++ nl ++
  "4. At the end, summarize which options are correct" ++ nl ++
  nl ++
  "Here's the question:" ++ nl ++
  question.

Definition groq_reqBody (question : string) : GroqRequest :=
  {| Model := "llama-3.3-70b-versatile";
     Messages := [ {| Role := "user";
                      MessageContent := groq_enhancedPrompt question |} ] |}.

Definition getGroqResponse (question apiKey : string) : M (result Response) :=
  let url := "https://api.groq.com/openai/v1/chat/completions" in
  let reqBody := groq_reqBody question in
  match json_Marshal reqBody with
  | Err err => ret (Err ("failed to marshal request: " ++ err))
  | Val jsonData =>
      match http_NewRequest_error "POST" url with
      | Some err => ret (Err ("failed to create request: " ++ err))
      | None =>
          let req := {| Method := "POST"; URL := url;
                        Header := [ ("Authorization", "Bearer " ++ apiKey);
                                    ("Content-Type", "application/json") ];
                        Body := jsonData |} in
          r <- client_Do req ;;
          match r with
          | Err err => ret (Err ("failed to send request: " ++ err))
          | Val resp =>
              if negb (StatusCode resp =? StatusOK)
              then ret (Err ("API request failed with status: " ++ fmt_d (StatusCode resp)))
              else
                match json_Decode (ResponseBody resp) with
                | Err err => ret (Err ("failed to decode response: " ++ err))
                | Val groqResp =>
                    match Choices groqResp with
                    | [] => ret (Err "no response choices returned")
                    | c :: _ =>
                        ret (Val {| Source := "Groq";
                                    Content := ChoiceMessageContent c |})
                    end
                end
          end
      end
  end.

(** The prompt of [compareResponses] (lines 293-300); the source text is
    indented with tabs inside the raw string and its first line ends in a
    space. *)
Definition comparisonPrompt (resp1 resp2 : string) : string :=
  "Compare these two responses and determine if they convey the same meaning. " ++ nl ++
  tab ++ "Only respond with " ++ dquote ++ "true" ++ dquote ++
  " if they are semantically equivalent, or " ++ dquote ++ "false" ++ dquote ++
  " if they differ significantly in meaning." ++ nl ++
  tab ++ nl ++
  tab ++ "Response 1:" ++ nl ++
  tab ++ resp1 ++ nl ++
  nl ++
  tab ++ "Response 2:" ++ nl ++
  tab ++ resp2.

Definition compareResponses (resp1 resp2 geminiKey : string) : M (result bool) :=
  err <- NewClient geminiKey ;;
  match err with
  | Some err => ret (Err ("failed to create Gemini client for comparison: " ++ err))
  | None =>
      r <- GenerateContent "gemini-pro" (comparisonPrompt resp1 resp2) ;;
      match r with
      | Err err => ret (Err ("failed to compare responses using Gemini: " ++ err))
      | Val resp =>
          t <- first_text resp ;;
          let result := ToLower (TrimSpace t) in
          ret (Val (result =? "true")%string)
      end
  end.

Definition formatResponse (response : string) : string :=
  let response := ReplaceAll response "Option" (nl ++ "Option") in
  let response := ReplaceAll response "Summary" (nl ++ nl ++ "Summary") in
  response.

(** The variables of [processQuestion] that live across iterations; a nil
    [*Response] or nil [error] is [None]. *)
Record Locals := {
  geminiResp : option Response;
  groqResp : option Response;
  lastGeminiErr : option error;
  lastGroqErr : option error;
  attempt : Z
}.

Definition initial_locals : Locals :=
  {| geminiResp := None; groqResp := None;
     lastGeminiErr := None; lastGroqErr := None; attempt := 0 |}.

(** How one pass through the loop body ends: [continue] (or falling off the
    end of the body), after which [attempt++] has run, or [return]. *)
Inductive Step :=
| Continue (st : Locals)
| Return (r : result string).

Definition attempt_prefix (st : Locals) : string :=
  "Attempt " ++ fmt_d (attempt st + 1).

(** Lines 145-171.  A failed call assigns nil to the response variable it
    was to fill: [geminiResp, err = getGeminiResponse(...)]. *)
Definition loop_body (question : string) (config : Config) (st : Locals) : M Step :=
  r <- getGeminiResponse question (GeminiKey config) ;;
  match r with
  | Err err =>
      log_Printf (attempt_prefix st ++ ": Gemini API error: " ++ err) ;;
      ret (Continue {| geminiResp := None; groqResp := groqResp st;
                       lastGeminiErr := Some err; lastGroqErr := lastGroqErr st;
                       attempt := attempt st + 1 |})
  | Val gemini =>
      r <- getGroqResponse question (GroqKey config) ;;
      match r with
      | Err err =>
          log_Printf (attempt_prefix st ++ ": Groq API error: " ++ err) ;;
          ret (Continue {| geminiResp := Some gemini; groqResp := None;
                           lastGeminiErr := lastGeminiErr st; lastGroqErr := Some err;
                           attempt := attempt st + 1 |})
      | Val groq =>
          let st' := {| geminiResp := Some gemini; groqResp := Some groq;
                        lastGeminiErr := lastGeminiErr st;
                        lastGroqErr := lastGroqErr st;
                        attempt := attempt st + 1 |} in
          r <- compareResponses (Content gemini) (Content groq) (GeminiKey config) ;;
          match r with
          | Err err =>
              log_Printf (attempt_prefix st ++ ": Comparison error: " ++ err) ;;
              ret (Continue st')
          | Val similar =>
              if similar then ret (Return (Val (Content gemini)))
              else
                log_Printf (attempt_prefix st ++ ": Responses differ, retrying...") ;;
                ret (Continue st')
          end
      end
  end.

(** Lines 174-192, after the loop. *)
Definition after_loop (config : Config) (st : Locals) : result string :=
  match geminiResp st, groqResp st with
  | None, None =>
      Err ("failed to get responses after " ++ fmt_d (MaxRetries config) ++
           " attempts. Gemini error: " ++ fmt_v (lastGeminiErr st) ++
           ", Groq error: " ++ fmt_v (lastGroqErr st))
  | _, _ =>
      let geminiContent :=
        match geminiResp st with
        | Some r => formatResponse (Content r)
        | None => "Error getting response"
        end in
      let groqContent :=
        match groqResp st with
        | Some r => formatResponse (Content r)
        | None => "Error getting response"
        end in
      Val ("Responses after " ++ fmt_d (MaxRetries config) ++ " attempts:" ++ nl ++ nl ++
           "Gemini Response:" ++ nl ++ geminiContent ++ nl ++ nl ++
           "Groq Response:" ++ nl ++ groqContent)
  end.

(** [for attempt := 0; attempt < config.MaxRetries; attempt++ { ... }]
    followed by the code after it.  [fuel] bounds the number of times the
    loop condition is evaluated. *)
Fixpoint retry_loop (fuel : nat) (question : string) (config : Config)
    (st : Locals) : M (result string) :=
  match fuel with
  | O => fun w => (OutOfFuel, w)
  | S fuel' =>
      if attempt st <? MaxRetries config then
        s <- loop_body question config st ;;
        match s with
        | Continue st' => retry_loop fuel' question config st'
        | Return r => ret r
        end
      else ret (after_loop config st)
  end.

Definition processQuestion (question : string) (config : Config) : M (result string) :=
  retry_loop (S (Z.to_nat (MaxRetries config))) question config initial_locals.

End Program.

(* ================================================================= *)
(** ** The interactive loop of [main] *)

(** What [main] reads at start-up: the result of [godotenv.Load], the two
    environment variables and the value of the [-max-retries] flag
    ([flag.Parse] ends the process by itself on a malformed command line;
    the model starts from a parsed one). *)
Record Startup := {
  dotenv_Load : option error;
  GEMINI_API_KEY : string;
  GROQ_API_KEY : string;
  max_retries_flag : Z
}.

(** One result of [reader.ReadString('\n')]: the bytes read and the error. *)
Definition ReadResult := (string * option error)%type.

(** How the process stands when the model stops: it has exited with a code,
    or it waits in [ReadString] for input the script does not hold. *)
Inductive Status :=
| Exited (code : Z)
| AwaitingInput.

Section Session.
Context {U : Unicode} {C : Codec}.
Variable remote : Remote.

Definition fmt_Println (text : string) : M unit := fmt_Print (text ++ nl).

(** [log.Fatal]: log, then [os.Exit(1)]. *)
Definition log_Fatal (msg : string) : M Status :=
  log_Printf msg ;; ret (Exited 1).

Definition ask : M unit := fmt_Print (nl ++ "Enter your question:" ++ nl).

(** Lines 98-136.  The two nested loops read one [ReadString] result at a
    time; [questionBuilder] is the text gathered for the current question.
    Each arm ends where the source loops back: to the inner loop with the
    builder kept, or to the outer loop (prompt printed, builder empty). *)
Fixpoint read_loop (config : Config) (stdin : list ReadResult)
    (questionBuilder : string) : M Status :=
  match stdin with
  | [] => ret AwaitingInput
  | (line, Some err) :: stdin' =>
      if (err =? "EOF")%string then
        let question := TrimSpace questionBuilder in
        if (question =? "")%string then
          ask ;; read_loop config stdin' ""
        else
          r <- processQuestion remote question config ;;
          match r with
          | Err err =>
              log_Printf ("Error processing question: " ++ err) ;;
              ask ;; read_loop config stdin' ""
          | Val response =>
              fmt_Print (nl ++ "Response:" ++ nl ++ response ++ nl) ;;
              ask ;; read_loop config stdin' ""
          end
      else
        log_Printf ("Error reading input: " ++ err) ;;
        read_loop config stdin' questionBuilder
  | (line, None) :: stdin' =>
      if (TrimSpace (ToLower line) =? "exit")%string then
        fmt_Println "Goodbye!" ;; ret (Exited 0)
      else read_loop config stdin' (questionBuilder ++ line)
  end.

(** Lines 68-136; the signal handler runs in a goroutine of its own and is
    not modelled. *)
Definition main (env : Startup) (stdin : list ReadResult) : M Status :=
  match dotenv_Load env with
  | Some _ => log_Fatal "Error loading .env file"
  | None =>
      let geminiKey := GEMINI_API_KEY env in
      let groqKey := GROQ_API_KEY env in
      let maxRetries := max_retries_flag env in
      if (geminiKey =? "")%string || (groqKey =? "")%string then
        log_Fatal "Please set GEMINI_API_KEY and GROQ_API_KEY in .env file"
      else
        let config := {| GeminiKey := geminiKey; GroqKey := groqKey;
                         MaxRetries := maxRetries |} in
        fmt_Println "Interactive AI Question Answering System" ;;
        fmt_Println "Enter your questions (type 'exit' to quit)" ;;
        fmt_Println "Type your question and press Ctrl+D (Unix) or Ctrl+Z (Windows) on a new line to finish" ;;
        fmt_Println "----------------------------------------" ;;
        ask ;;
        read_loop config stdin ""
  end.

End Session.

(* ================================================================= *)
(** ** What the attempts of a run observe *)

(** What one pass through the loop body met. *)
Inductive Attempt :=
| GeminiFailed (e : error)
| GroqFailed (a : Response) (e : error)
| JudgeFailed (a b : Response) (e : error)
| Differ (a b : Response)
| Agree (a b : Response)
| Crashed (msg : string).

Section Runs.
Context {U : Unicode} {C : Codec}.
Variable remote : Remote.
Variable question : string.
Variable config : Config.

(** The three calls of an attempt that starts with trace [w], read off the
    functions of the program. *)
Definition attempt_outcome (w : Trace) : Attempt :=
  match getGeminiResponse remote question (GeminiKey config) w with
  | (Done (Err e), _) => GeminiFailed e
  | (Done (Val a), w1) =>
      match getGroqResponse remote question (GroqKey config) w1 with
      | (Done (Err e), _) => GroqFailed a e
      | (Done (Val b), w2) =>
          match compareResponses remote (Content a) (Content b) (GeminiKey config) w2 with
          | (Done (Err e), _) => JudgeFailed a b e
          | (Done (Val true), _) => Agree a b
          | (Done (Val false), _) => Differ a b
          | (Panic msg, _) => Crashed msg
          | (OutOfFuel, _) => Crashed ""
          end
      | (Panic msg, _) => Crashed msg
      | (OutOfFuel, _) => Crashed ""
      end
  | (Panic msg, _) => Crashed msg
  | (OutOfFuel, _) => Crashed ""
  end.

(** The loop states at which the body is entered, for at most [n] passes
    from [st] and [w]: each pass is [loop_body] itself. *)
Fixpoint visited (n : nat) (st : Locals) (w : Trace) : list (Locals * Trace) :=
  match n with
  | O => []
  | S n' =>
      (st, w) ::
      match loop_body remote question config st w with
      | (Done (Continue st'), w') => visited n' st' w'
      | _ => []
      end
  end.

(** The attempts made in at most [n] passes from [st] and [w]. *)
Definition outcomes (n : nat) (st : Locals) (w : Trace) : list Attempt :=
  map (fun sw => attempt_outcome (snd sw)) (visited n st w).

(** The attempts [processQuestion] makes from trace [w0], in order. *)
Definition attempts (w0 : Trace) : list Attempt :=
  outcomes (Z.to_nat (MaxRetries config)) initial_locals w0.

(** The passes still to run from [st]. *)
Definition remaining (st : Locals) : nat := Z.to_nat (MaxRetries config - attempt st).

End Runs.

(** The answers and errors a finished run is left with, read off the list
    of its attempts. *)
Definition answerA_of (o : Attempt) : option Response :=
  match o with
  | GroqFailed a _ | JudgeFailed a _ _ | Differ a _ | Agree a _ => Some a
  | GeminiFailed _ | Crashed _ => None
  end.

(** Backend A's answer in the last attempt. *)
Definition last_answerA (h : list Attempt) : option Response :=
  match rev h with
  | o :: _ => answerA_of o
  | [] => None
  end.

(** Backend B's answer in the latest attempt that called Backend B. *)
Fixpoint latest_answerB_rev (r : list Attempt) : option Response :=
  match r with
  | [] => None
  | (JudgeFailed _ b _ | Differ _ b | Agree _ b) :: _ => Some b
  | GroqFailed _ _ :: _ => None
  | (GeminiFailed _ | Crashed _) :: r' => latest_answerB_rev r'
  end.
Definition latest_answerB (h : list Attempt) : option Response :=
  latest_answerB_rev (rev h).

(** The latest error of Backend A, over all attempts. *)
Fixpoint latest_errorA_rev (r : list Attempt) : option error :=
  match r with
  | [] => None
  | GeminiFailed e :: _ => Some e
  | _ :: r' => latest_errorA_rev r'
  end.
Definition latest_errorA (h : list Attempt) : option error :=
  latest_errorA_rev (rev h).

(** The latest error of Backend B, over all attempts. *)
Fixpoint latest_errorB_rev (r : list Attempt) : option error :=
  match r with
  | [] => None
  | GroqFailed _ e :: _ => Some e
  | _ :: r' => latest_errorB_rev r'
  end.
Definition latest_errorB (h : list Attempt) : option error :=
  latest_errorB_rev (rev h).

Definition is_agree (o : Attempt) : bool :=
  match o with Agree _ _ => true | _ => false end.
Definition is_crashed (o : Attempt) : bool :=
  match o with Crashed _ => true | _ => false end.
Definition is_gemini_failed (o : Attempt) : bool :=
  match o with GeminiFailed _ => true | _ => false end.
Definition is_groq_failed (o : Attempt) : bool :=
  match o with GroqFailed _ _ => true | _ => false end.

(** No attempt of [h] ended the loop: none agreed and none panicked. *)
Definition never_agreed (h : list Attempt) : bool :=
  forallb (fun o => negb (is_agree o) && negb (is_crashed o)) h.

(** Backend B took no part in the attempt, or failed in it. *)
Definition no_answer_from_B (o : Attempt) : bool :=
  is_gemini_failed o || is_groq_failed o.

(** The attempts of [h] that the claim of C2 lets the output depend on:
    the last one alone. *)
Definition last_attempt_only (h : list Attempt) : list Attempt :=
  match rev h with
  | o :: _ => [o]
  | [] => []
  end.

(* ================================================================= *)
(** ** The loop variables after an attempt *)

(** The loop variables after a pass that met [o] and went on. *)
Definition next_locals (st : Locals) (o : Attempt) : Locals :=
  match o with
  | GeminiFailed e =>
      {| geminiResp := None; groqResp := groqResp st;
         lastGeminiErr := Some e; lastGroqErr := lastGroqErr st;
         attempt := attempt st + 1 |}
  | GroqFailed a e =>
      {| geminiResp := Some a; groqResp := None;
         lastGeminiErr := lastGeminiErr st; lastGroqErr := Some e;
         attempt := attempt st + 1 |}
  | JudgeFailed a b _ | Differ a b =>
      {| geminiResp := Some a; groqResp := Some b;
         lastGeminiErr := lastGeminiErr st; lastGroqErr := lastGroqErr st;
         attempt := attempt st + 1 |}
  | Agree _ _ | Crashed _ => st
  end.

Definition goes_on (o : Attempt) : bool := negb (is_agree o) && negb (is_crashed o).

(* ================================================================= *)
(** ** The terminal states of the orchestrator *)

(** [ExhaustedNoAnswers(lastErrorA, lastErrorB)]: the error returned. *)
Definition ExhaustedNoAnswers (maxRetries : Z) (lastErrorA lastErrorB : option error)
  : result string :=
  Err ("failed to get responses after " ++ fmt_d maxRetries ++
       " attempts. Gemini error: " ++ fmt_v lastErrorA ++
       ", Groq error: " ++ fmt_v lastErrorB).

(** A response as the side-by-side output shows it: its content passed
    through [layout], or the placeholder when there is none. *)
Definition shown (layout : string -> string) (r : option Response) : string :=
  match r with
  | Some r => layout (Content r)
  | None => "Error getting response"
  end.

(** [ExhaustedWithAnswers(answerA, answerB)]: the side-by-side output. *)
Definition ExhaustedWithAnswers (layout : string -> string) (maxRetries : Z)
    (answerA answerB : option Response) : result string :=
  Val ("Responses after " ++ fmt_d maxRetries ++ " attempts:" ++ nl ++ nl ++
       "Gemini Response:" ++ nl ++ shown layout answerA ++ nl ++ nl ++
       "Groq Response:" ++ nl ++ shown layout answerB).

(** The exhausted output for a run whose attempts were [h]. *)
Definition exhausted_output (layout : string -> string) (maxRetries : Z)
    (h : list Attempt) : result string :=
  match last_answerA h, latest_answerB h with
  | None, None => ExhaustedNoAnswers maxRetries (latest_errorA h) (latest_errorB h)
  | a, b => ExhaustedWithAnswers layout maxRetries a b
  end.

(* ================================================================= *)
(** ** Scripted services for worked runs *)

(** Worked runs use ASCII text, which never reaches the Unicode paths. *)
Definition bytes_only : Unicode :=
  {| TrimFunc_IsSpace := fun s => s;
     TrimRightFunc_IsSpace := fun s => s;
     Map_ToLower := fun s => s |}.

(** A codec for worked runs: the request body is the prompt; an empty
    response body holds no choice, any other is the content of a single
    choice. *)
Definition plain_codec : Codec :=
  {| json_Marshal := fun req => Val (String.concat "" (map MessageContent (Messages req)));
     json_Decode := fun body =>
       if (body =? "")%string then Val {| Choices := [] |}
       else Val {| Choices := [ {| ChoiceMessageContent := body |} ] |};
     http_NewRequest_error := fun _ _ => None |}.

Fixpoint generate_calls (w : Trace) : nat :=
  match w with
  | [] => O
  | EvGenerateContent _ _ :: w' => S (generate_calls w')
  | _ :: w' => generate_calls w'
  end.

Fixpoint http_calls (w : Trace) : nat :=
  match w with
  | [] => O
  | EvHttpDo _ :: w' => S (http_calls w')
  | _ :: w' => http_calls w'
  end.

(** Services that answer their calls from two scripts, in order. *)
Definition scripted (gen : list (result GenerateContentResponse))
    (post : list (result HttpResponse)) : Remote :=
  {| genai_NewClient := fun _ _ => None;
     genai_GenerateContent := fun w _ _ => nth (generate_calls w) gen (Err "no more answers");
     http_Do := fun w _ => nth (http_calls w) post (Err "no more answers") |}.

Definition text_reply (t : string) : result GenerateContentResponse :=
  Val {| Candidates := [ {| CandidateContent := Some {| Parts := [Text t] |} |} ] |}.

Definition http_reply (body : string) : result HttpResponse :=
  Val {| StatusCode := 200; ResponseBody := body |}.

Definition gemini_says (t : string) : Response := {| Source := "Gemini"; Content := t |}.
Definition groq_says (t : string) : Response := {| Source := "Groq"; Content := t |}.

Definition config_of (maxRetries : Z) : Config :=
  {| GeminiKey := "gk"; GroqKey := "qk"; MaxRetries := maxRetries |}.

(** The first scenario of the specification: one attempt, the judge says
    true. *)
Definition scenario_agree : Remote :=
  scripted [text_reply "B is correct"; text_reply "true"]
           [http_reply "B) 4 is correct"].

(** Two attempts that differ, then one that agrees, out of five allowed. *)
Definition scenario_third : Remote :=
  scripted [text_reply "A"; text_reply "false";
            text_reply "B"; text_reply "no";
            text_reply "B is correct"; text_reply " TRUE" ]
           [http_reply "B"; http_reply "A"; http_reply "B) 4 is correct"].

(** Backend A is down: every generation call fails. *)
Definition scenario_A_down : Remote :=
  scripted [Err "timeout 1"; Err "timeout 2"; Err "timeout 3"] [].

(** Both backends answer and the judge says false, then Backend A fails. *)
Definition scenario_stale : Remote :=
  scripted [text_reply "A"; text_reply "false"; Err "timeout"] [http_reply "B"].

(** Backend A answers, Backend B cannot be reached. *)
Definition scenario_B_down : Remote :=
  scripted [text_reply "Option B"] [Err "connection refused"].

(** Backend B cannot be reached in the first attempt, Backend A fails in
    the second. *)
Definition scenario_late_A_failure : Remote :=
  scripted [text_reply "A"; Err "timeout"] [Err "connection refused"].

(** The run of [scenario_late_A_failure] with two attempts allowed. *)
Definition late_A_failure_attempts : list Attempt :=
  attempts (U:=bytes_only) (C:=plain_codec) scenario_late_A_failure "2+2=?"
    (config_of 2) [].
Definition late_A_failure_result : Res (result string) :=
  fst (processQuestion (U:=bytes_only) (C:=plain_codec) scenario_late_A_failure "2+2=?"
         (config_of 2) []).

(** The run of [scenario_stale] with two attempts allowed. *)
Definition stale_attempts : list Attempt :=
  attempts (U:=bytes_only) (C:=plain_codec) scenario_stale "2+2=?" (config_of 2) [].
Definition stale_result : Res (result string) :=
  fst (processQuestion (U:=bytes_only) (C:=plain_codec) scenario_stale "2+2=?"
         (config_of 2) []).

(** The run of [scenario_B_down] with one attempt allowed. *)
Definition B_down_attempts : list Attempt :=
  attempts (U:=bytes_only) (C:=plain_codec) scenario_B_down "2+2=?" (config_of 1) [].
Definition B_down_result : Res (result string) :=
  fst (processQuestion (U:=bytes_only) (C:=plain_codec) scenario_B_down "2+2=?"
         (config_of 1) []).

(** The second scenario of the specification: both backends answer twice
    and the judge says false twice. *)
Definition scenario_differ : Remote :=
  scripted [text_reply "Option A is wrong. Option B is right. Summary: B";
            text_reply "false";
            text_reply "Option B. Summary: B"; text_reply "false"]
           [http_reply "B"; http_reply "It is Option B"].

(** The generation call succeeds and returns nothing to read. *)
Definition scenario_no_candidates : Remote :=
  scripted [Val {| Candidates := [] |}] [].
Definition scenario_nil_content : Remote :=
  scripted [Val {| Candidates := [ {| CandidateContent := None |} ] |}] [].
Definition scenario_no_parts : Remote :=
  scripted [Val {| Candidates := [ {| CandidateContent := Some {| Parts := [] |} |} ] |}] [].
Definition scenario_blob_part : Remote :=
  scripted [Val {| Candidates :=
                     [ {| CandidateContent := Some {| Parts := [Blob "image/png" ""] |} |} ] |}]
           [].

Definition startup_ok : Startup :=
  {| dotenv_Load := None; GEMINI_API_KEY := "gk"; GROQ_API_KEY := "qk";
     max_retries_flag := 3 |}.

(** The user types a question, ends it, and means to ask another. *)
Definition two_questions : list ReadResult :=
  [ ("2+2=?" ++ nl, None); ("", Some "EOF");
    ("3+3=?" ++ nl, None); ("", Some "EOF") ].

(* ================================================================= *)
(** ** [formatResponse] as insertion of line breaks *)

(** [ins] written before every place of [s] where [pat] begins. *)
Fixpoint insert_before (pat ins : string) (s : string) : string :=
  match s with
  | "" => ""
  | String c s' =>
      (if prefix pat s then ins else "") ++ String c (insert_before pat ins s')
  end.

(** The claim's words: a newline before every occurrence of [Option] and
    two newlines before every occurrence of [Summary], the rest of the text
    as it is. *)
Fixpoint break_before_markers (s : string) : string :=
  match s with
  | "" => ""
  | String c s' =>
      (if prefix "Option" s then nl
       else if prefix "Summary" s then nl ++ nl
       else "") ++ String c (break_before_markers s')
  end.

Fixpoint occurs_in (a : ascii) (s : string) : bool :=
  match s with
  | "" => false
  | String c s' => Ascii.eqb a c || occurs_in a s'
  end.

(* ================================================================= *)
(** ** The prompt, and answers that can be read *)

(** [q] occurs in [s]. *)
Definition is_substring (q s : string) : Prop :=
  exists pre post, s = pre ++ q ++ post.

(** The instructions put before the question: the prompt of an empty
    question. *)
Definition instruction_template : string := gemini_enhancedPrompt "".

(** The response has a first candidate whose first part is text. *)
Definition has_first_text (resp : GenerateContentResponse) : bool :=
  match Candidates resp with
  | {| CandidateContent := Some {| Parts := Text _ :: _ |} |} :: _ => true
  | _ => false
  end.

(** Every generation call that succeeds returns text to read. *)
Definition answers_usable (remote : Remote) : Prop :=
  forall w model prompt resp,
    genai_GenerateContent remote w model prompt = Val resp -> has_first_text resp = true.

(* ================================================================= *)
(** ** Requests, answers and traces, for the further properties *)

(** The endpoint of [getGroqResponse] (line 225). *)
Definition groq_url : string := "https://api.groq.com/openai/v1/chat/completions".

(** The request [getGroqResponse] sends (lines 252-258). *)
Definition groq_request (apiKey jsonData : string) : HttpRequest :=
  {| Method := "POST"; URL := groq_url;
     Header := [ ("Authorization", "Bearer " ++ apiKey);
                 ("Content-Type", "application/json") ];
     Body := jsonData |}.

(** The text [resp.Candidates[0].Content.Parts[0].(genai.Text)] reads, when
    there is one. *)
Definition response_text (resp : GenerateContentResponse) : option string :=
  match Candidates resp with
  | {| CandidateContent := Some {| Parts := Text t :: _ |} |} :: _ => Some t
  | _ => None
  end.

Fixpoint client_calls (w : Trace) : nat :=
  match w with
  | [] => O
  | EvNewClient _ :: w' => S (client_calls w')
  | _ :: w' => client_calls w'
  end.

(** The messages logged, newest first. *)
Fixpoint log_lines (w : Trace) : list string :=
  match w with
  | [] => []
  | EvLog msg :: w' => msg :: log_lines w'
  | _ :: w' => log_lines w'
  end.

(** The texts printed, newest first. *)
Fixpoint printed (w : Trace) : list string :=
  match w with
  | [] => []
  | EvPrint text :: w' => text :: printed w'
  | _ :: w' => printed w'
  end.

(** The line the attempt with counter [i] logs when it met [o] (lines 148,
    155, 163 and 171): nothing when it agreed or panicked. *)
Definition attempt_log (i : Z) (o : Attempt) : list string :=
  match o with
  | GeminiFailed e => ["Attempt " ++ fmt_d (i + 1) ++ ": Gemini API error: " ++ e]
  | GroqFailed _ e => ["Attempt " ++ fmt_d (i + 1) ++ ": Groq API error: " ++ e]
  | JudgeFailed _ _ e => ["Attempt " ++ fmt_d (i + 1) ++ ": Comparison error: " ++ e]
  | Differ _ _ => ["Attempt " ++ fmt_d (i + 1) ++ ": Responses differ, retrying..."]
  | Agree _ _ | Crashed _ => []
  end.

(** The lines a run logs, oldest first, when its attempts from counter [i]
    on were [h]. *)
Fixpoint run_log (i : Z) (h : list Attempt) : list string :=
  match h with
  | [] => []
  | o :: h' => (attempt_log i o ++ run_log (i + 1) h')%list
  end.

(** The events [processQuestion] may add for a question and a
    configuration: a client made with the Gemini key, a generation call to
    [gemini-pro] with the enhanced prompt or with a comparison prompt, the
    one request of [getGroqResponse], a log line.  It prints nothing. *)
Definition own_event {C : Codec} (question : string) (config : Config) (e : Event) : Prop :=
  match e with
  | EvNewClient k => k = GeminiKey config
  | EvGenerateContent model prompt =>
      model = "gemini-pro" /\
      (prompt = gemini_enhancedPrompt question \/
       exists a b, prompt = comparisonPrompt a b)
  | EvHttpDo req =>
      exists jsonData,
        json_Marshal (groq_reqBody question) = Val jsonData /\
        req = groq_request (GroqKey config) jsonData
  | EvLog _ => True
  | EvPrint _ => False
  end.

(** [new] holds own events only, and at most [h] HTTP calls, [g]
    generation calls and [g] clients. *)
Definition adds {C : Codec} (question : string) (config : Config) (h g : nat)
    (new : Trace) : Prop :=
  Forall (own_event question config) new /\
  (http_calls new <= h)%nat /\ (generate_calls new <= g)%nat /\
  (client_calls new <= g)%nat.

(** The number of places of [s] where [pat] begins. *)
Fixpoint occurrences (pat s : string) : nat :=
  match s with
  | "" => O
  | String c s' => ((if prefix pat s then 1 else 0) + occurrences pat s')%nat
  end.

(** [s] without its newlines. *)
Fixpoint strip_newlines (s : string) : string :=
  match s with
  | "" => ""
  | String c s' =>
      if Ascii.eqb c "010" then strip_newlines s' else String c (strip_newlines s')
  end.

(** The calls made to the outside: clients, generation calls, HTTP calls. *)
Definition remote_calls (w : Trace) : nat :=
  (client_calls w + generate_calls w + http_calls w)%nat.

(** Lines read without error. *)
Definition typed (lines : list string) : list ReadResult :=
  map (fun line => (line, None)) lines.

(** What [questionBuilder] holds after the lines were written to it. *)
Definition written (lines : list string) : string := fold_right append "" lines.

(** The read failed with the error whose message is [EOF] (line 105). *)
Definition is_end_of_input (x : ReadResult) : bool :=
  match snd x with
  | Some err => (err =? "EOF")%string
  | None => false
  end.

(** The test of line 113. *)
Definition says_exit {U : Unicode} (line : string) : bool :=
  (TrimSpace (ToLower line) =? "exit")%string.

(** A line read without error that says [exit]. *)
Definition is_exit_line {U : Unicode} (x : ReadResult) : bool :=
  match snd x with
  | None => says_exit (fst x)
  | Some _ => false
  end.

(** The prompt of line 99. *)
Definition ask_text : string := nl ++ "Enter your question:" ++ nl.

(** What [main] does with the result of [processQuestion] (lines 127-132):
    it logs the error, or prints the response. *)
Definition report (r : result string) : Event :=
  match r with
  | Err err => EvLog ("Error processing question: " ++ err)
  | Val response => EvPrint (nl ++ "Response:" ++ nl ++ response ++ nl)
  end.

(** What [comparisonPrompt] writes before the first response. *)
Definition response_1_header : string :=
  "Compare these two responses and determine if they convey the same meaning. " ++ nl ++
  tab ++ "Only respond with " ++ dquote ++ "true" ++ dquote ++
  " if they are semantically equivalent, or " ++ dquote ++ "false" ++ dquote ++
  " if they differ significantly in meaning." ++ nl ++
  tab ++ nl ++
  tab ++ "Response 1:" ++ nl ++
  tab.

(** What [comparisonPrompt] writes between the two responses. *)
Definition response_2_header : string :=
  nl ++ nl ++ tab ++ "Response 2:" ++ nl ++ tab.

(** Two lines typed with a failed read between them, and no end of input. *)
Definition typing_without_end : list ReadResult :=
  [ ("2+2=?" ++ nl, None); ("", Some "read failed"); ("A) 3 B) 4" ++ nl, None) ].

(** A question typed on two lines, and lines of white space only. *)
Definition two_lines : list string := [ " 2+2=?" ++ nl; "A) 3 B) 4" ++ nl ].
Definition blank_lines : list string := [ "  " ++ nl; nl ].

(** A question begun, then a line that says exit, then more input. *)
Definition typing_then_exit : list ReadResult :=
  [ ("  Exit" ++ nl, None); ("2+2=?" ++ nl, None); ("", Some "EOF") ].


(** The attempt got an answer from Backend A, and so called Backend B. *)
Definition called_B (o : Attempt) : bool :=
  match o with
  | GroqFailed _ _ | JudgeFailed _ _ _ | Differ _ _ | Agree _ _ => true
  | GeminiFailed _ | Crashed _ => false
  end.

(** The attempt got an answer from both backends, and so called the judge. *)
Definition called_judge (o : Attempt) : bool :=
  match o with
  | JudgeFailed _ _ _ | Differ _ _ | Agree _ _ => true
  | GeminiFailed _ | GroqFailed _ _ | Crashed _ => false
  end.

Definition count_of (f : Attempt -> bool) (h : list Attempt) : nat :=
  List.length (filter f h).

(** The lines among [entries] that were read without error. *)
Definition lines_read (entries : list ReadResult) : list string :=
  flat_map (fun x => match snd x with None => [fst x] | Some _ => [] end) entries.

(** The log of the reads of [entries] that failed, newest first. *)
Definition read_error_log (entries : list ReadResult) : Trace :=
  rev (flat_map (fun x => match snd x with
                          | Some err => [EvLog ("Error reading input: " ++ err)]
                          | None => []
                          end) entries).

(** The entry neither ends the input nor says exit. *)
Definition goes_to_builder {U : Unicode} (x : ReadResult) : bool :=
  negb (is_end_of_input x) && negb (is_exit_line x).

(** A line typed, a read that fails and drops what came with it, and
    another line. *)
Definition typing_with_read_error : list ReadResult :=
  [ ("2+2=?" ++ nl, None); ("lost", Some "read failed"); ("A) 3 B) 4" ++ nl, None) ].

(* ================================================================= *)
(** * Proofs *)

(* ================================================================= *)
(** ** The loop body and the attempt it observes *)

Lemma first_text_cases (resp : GenerateContentResponse) (w : Trace) :
  (exists t, first_text resp w = (Done t, w)) \/
  (exists msg, first_text resp w = (Panic msg, w)).
Proof.
  unfold first_text, bind, index0, deref, assert_Text, ret, panic.
  destruct resp as [cs]; destruct cs as [|[content] cs]; cbn; eauto.
  destruct content as [[ps]|]; cbn; eauto.
  destruct ps as [|[t|m d|f] ps]; cbn; eauto.
Qed.

(** Run the monadic glue, leaving the calls and the strings alone. *)
Ltac run_go :=
  unfold bind, ret, log_Printf, fmt_Print, emit, panic, fst, snd; cbv beta iota.

Ltac split_first_text :=
  match goal with
  | |- context [first_text ?r ?w] =>
      let H := fresh "Htext" in
      destruct (first_text_cases r w) as [[? H]|[? H]]; rewrite H
  end.

Section BodyFacts.
Context {U : Unicode} {C : Codec}.
Variable remote : Remote.
Variable question : string.
Variable config : Config.

Lemma getGeminiResponse_fuel (q key : string) (w : Trace) :
  fst (getGeminiResponse remote q key w) <> OutOfFuel.
Proof.
  unfold getGeminiResponse, bind, NewClient, GenerateContent, ret.
  destruct (genai_NewClient remote w key); [cbn; discriminate|].
  destruct (genai_GenerateContent remote _ _ _) as [resp|e]; [|cbn; discriminate].
  split_first_text; cbn; discriminate.
Qed.

Lemma getGroqResponse_done (q key : string) (w : Trace) :
  exists r w', getGroqResponse remote q key w = (Done r, w').
Proof.
  unfold getGroqResponse, bind, client_Do, ret.
  destruct (json_Marshal _); eauto.
  destruct (http_NewRequest_error _ _); eauto.
  destruct (http_Do remote w _) as [resp|e]; eauto.
  destruct (negb _); eauto.
  destruct (json_Decode _) as [g|e]; eauto.
  destruct (Choices g); eauto.
Qed.

Lemma compareResponses_fuel (r1 r2 key : string) (w : Trace) :
  fst (compareResponses remote r1 r2 key w) <> OutOfFuel.
Proof.
  unfold compareResponses, bind, NewClient, GenerateContent, ret.
  destruct (genai_NewClient remote w key); [cbn; discriminate|].
  destruct (genai_GenerateContent remote _ _ _) as [resp|e]; [|cbn; discriminate].
  split_first_text; cbn; discriminate.
Qed.

(** A pass that neither agrees nor panics goes on to the next attempt with
    the variables updated as [next_locals] says. *)
Lemma loop_body_goes_on (st : Locals) (w : Trace) :
  goes_on (attempt_outcome remote question config w) = true ->
  exists w',
    loop_body remote question config st w =
    (Done (Continue (next_locals st (attempt_outcome remote question config w))), w').
Proof.
  unfold attempt_outcome, loop_body, bind.
  destruct (getGeminiResponse remote question (GeminiKey config) w) as [[[a|e]|m|] w1];
    run_go; try discriminate; eauto.
  destruct (getGroqResponse remote question (GroqKey config) w1) as [[[b|e]|m|] w2];
    run_go; try discriminate; eauto.
  destruct (compareResponses remote (Content a) (Content b) (GeminiKey config) w2)
    as [[[[|]|e]|m|] w3]; run_go; try discriminate; eauto.
Qed.

(** A pass in which both backends answer and the judge says true returns
    Backend A's content, and the judge's call is the last thing done. *)
Lemma loop_body_agree (st : Locals) (w : Trace) (a b : Response) :
  attempt_outcome remote question config w = Agree a b ->
  exists w1 w2 w3,
    getGeminiResponse remote question (GeminiKey config) w = (Done (Val a), w1) /\
    getGroqResponse remote question (GroqKey config) w1 = (Done (Val b), w2) /\
    compareResponses remote (Content a) (Content b) (GeminiKey config) w2
      = (Done (Val true), w3) /\
    loop_body remote question config st w = (Done (Return (Val (Content a))), w3).
Proof.
  unfold attempt_outcome, loop_body, bind.
  destruct (getGeminiResponse remote question (GeminiKey config) w)
    as [[[a'|e]|m|] w1] eqn:EA; run_go; try discriminate.
  destruct (getGroqResponse remote question (GroqKey config) w1)
    as [[[b'|e]|m|] w2] eqn:EB; run_go; try discriminate.
  destruct (compareResponses remote (Content a') (Content b') (GeminiKey config) w2)
    as [[[[|]|e]|m|] w3] eqn:E; run_go; try discriminate.
  intros H; injection H as -> ->.
  exists w1, w2, w3. repeat split; auto.
Qed.

(** A pass in which a call panics panics. *)
Lemma loop_body_crashed (st : Locals) (w : Trace) (msg : string) :
  attempt_outcome remote question config w = Crashed msg ->
  fst (loop_body remote question config st w) = Panic msg.
Proof.
  unfold attempt_outcome, loop_body, bind.
  pose proof (getGeminiResponse_fuel question (GeminiKey config) w) as FA.
  destruct (getGeminiResponse remote question (GeminiKey config) w) as [[[a|e]|m|] w1];
    run_go; try discriminate; try congruence; [| now elim FA].
  destruct (getGroqResponse_done question (GroqKey config) w1) as (r & w2 & ->).
  destruct r as [b|e]; run_go; try discriminate.
  pose proof (compareResponses_fuel (Content a) (Content b) (GeminiKey config) w2) as FJ.
  destruct (compareResponses remote (Content a) (Content b) (GeminiKey config) w2)
    as [[[[|]|e]|m|] w3]; run_go; try discriminate; try congruence.
  now elim FJ.
Qed.

End BodyFacts.

(* ================================================================= *)
(** ** The retry loop *)

Section LoopFacts.
Context {U : Unicode} {C : Codec}.
Variable remote : Remote.
Variable question : string.
Variable config : Config.

Lemma retry_loop_exit (fuel : nat) (st : Locals) (w : Trace) :
  remaining config st = O ->
  retry_loop remote (S fuel) question config st w = (Done (after_loop config st), w).
Proof.
  unfold remaining. intros H. cbn [retry_loop].
  destruct (Z.ltb_spec (attempt st) (MaxRetries config)); [lia | reflexivity].
Qed.

Lemma retry_loop_enter (fuel : nat) (st : Locals) (w : Trace) (n : nat) :
  remaining config st = S n ->
  retry_loop remote (S fuel) question config st w =
  match loop_body remote question config st w with
  | (Done (Continue st'), w') => retry_loop remote fuel question config st' w'
  | (Done (Return r), w') => (Done r, w')
  | (Panic msg, w') => (Panic msg, w')
  | (OutOfFuel, w') => (OutOfFuel, w')
  end.
Proof.
  unfold remaining. intros H. cbn [retry_loop].
  destruct (Z.ltb_spec (attempt st) (MaxRetries config)); [| lia].
  unfold bind.
  destruct (loop_body remote question config st w) as [[[st'|r]|m|] w']; reflexivity.
Qed.

Lemma remaining_next (st : Locals) (o : Attempt) (n : nat) :
  goes_on o = true -> remaining config st = S n -> remaining config (next_locals st o) = n.
Proof.
  unfold remaining. destruct o; cbn; try discriminate; intros _ H; lia.
Qed.

Lemma attempt_next (st : Locals) (o : Attempt) :
  goes_on o = true -> attempt (next_locals st o) = attempt st + 1.
Proof. destruct o; cbn; try discriminate; reflexivity. Qed.

Lemma outcomes_S (n : nat) (st : Locals) (w : Trace) :
  outcomes remote question config (S n) st w =
  attempt_outcome remote question config w ::
  match loop_body remote question config st w with
  | (Done (Continue st'), w') => outcomes remote question config n st' w'
  | _ => []
  end.
Proof.
  unfold outcomes. cbn [visited map snd].
  destruct (loop_body remote question config st w) as [[[st'|r]|m|] w']; reflexivity.
Qed.


(** When no pass agrees or panics, all the passes run, and the result is
    [after_loop] on the variables the passes leave. *)
Lemma retry_loop_exhausted (n : nat) :
  forall (fuel : nat) (st : Locals) (w : Trace),
    remaining config st = n -> (n < fuel)%nat ->
    never_agreed (outcomes remote question config n st w) = true ->
    List.length (outcomes remote question config n st w) = n /\
    exists wf,
      retry_loop remote fuel question config st w =
      (Done (after_loop config (fold_left next_locals (outcomes remote question config n st w) st)), wf).
Proof.
  induction n as [|n IH]; intros [|fuel] st w Hn Hf Hna; try lia.
  - split; [reflexivity|]. exists w. now rewrite retry_loop_exit.
  - rewrite outcomes_S in *. cbn [never_agreed forallb] in Hna.
    apply andb_true_iff in Hna as [G Hna].
    rewrite (retry_loop_enter _ _ _ n) by assumption.
    destruct (loop_body_goes_on remote question config st w G) as [w' E].
    rewrite E in *.
    destruct (IH fuel _ w' (remaining_next _ _ _ G Hn) ltac:(lia) Hna) as [L [wf R]].
    split; [cbn [List.length]; now rewrite L|].
    exists wf. rewrite R. reflexivity.
Qed.

(** When pass [k] agrees, the loop returns there with Backend A's content;
    the trace ends with the judge's call of that pass. *)
Lemma retry_loop_agree (n : nat) :
  forall (fuel : nat) (st : Locals) (w : Trace) (k : nat) (a b : Response),
    remaining config st = n -> (n < fuel)%nat ->
    nth_error (outcomes remote question config n st w) k = Some (Agree a b) ->
    List.length (outcomes remote question config n st w) = S k /\
    exists stk wk w1 w2 w3,
      nth_error (visited remote question config n st w) k = Some (stk, wk) /\
      attempt stk = attempt st + Z.of_nat k /\
      getGeminiResponse remote question (GeminiKey config) wk = (Done (Val a), w1) /\
      getGroqResponse remote question (GroqKey config) w1 = (Done (Val b), w2) /\
      compareResponses remote (Content a) (Content b) (GeminiKey config) w2
        = (Done (Val true), w3) /\
      retry_loop remote fuel question config st w = (Done (Val (Content a)), w3).
Proof.
  induction n as [|n IH]; intros [|fuel] st w k a b Hn Hf Hk; try lia.
  - destruct k; discriminate.
  - rewrite outcomes_S in *. rewrite (retry_loop_enter _ _ _ n) by assumption.
    cbn [visited].
    destruct k as [|k]; cbn [nth_error] in Hk |- *.
    + injection Hk as O.
      destruct (loop_body_agree remote question config st w a b O)
        as (w1 & w2 & w3 & EA & EB & EJ & E).
      rewrite E. split; [reflexivity|].
      exists st, w, w1, w2, w3. repeat split; auto. cbn. lia.
    + destruct (loop_body remote question config st w) as [[[st'|r]|m|] w'] eqn:E;
        try (destruct k; discriminate).
      destruct (goes_on (attempt_outcome remote question config w)) eqn:G.
      * destruct (loop_body_goes_on remote question config st w G) as [w'' E'].
        rewrite E in E'. injection E' as -> <-.
        destruct (IH fuel _ w' k a b (remaining_next _ _ _ G Hn) ltac:(lia) Hk)
          as [L (stk & wk & w1 & w2 & w3 & V & A & EA & EB & EJ & R)].
        split; [cbn [List.length]; now rewrite L|].
        exists stk, wk, w1, w2, w3. repeat split; auto.
        rewrite A, attempt_next by assumption. lia.
      * unfold goes_on in G.
        destruct (attempt_outcome remote question config w) eqn:O; try discriminate.
        -- destruct (loop_body_agree remote question config st w a0 b0 O)
             as (w1 & w2 & w3 & _ & _ & _ & E'). congruence.
        -- pose proof (loop_body_crashed remote question config st w msg O) as P.
           rewrite E in P. discriminate.
Qed.

End LoopFacts.

(* ================================================================= *)
(** ** The variables a run is left with *)

Lemma never_agreed_app (h1 h2 : list Attempt) :
  never_agreed (h1 ++ h2) = never_agreed h1 && never_agreed h2.
Proof. unfold never_agreed. apply forallb_app. Qed.

Lemma fold_next_locals_snoc (h : list Attempt) (o : Attempt) (st : Locals) :
  fold_left next_locals (h ++ [o]) st = next_locals (fold_left next_locals h st) o.
Proof. now rewrite fold_left_app. Qed.

(** The variables the passes leave are the latest answers and errors. *)
Lemma locals_of_history (h : list Attempt) :
  never_agreed h = true ->
  let st := fold_left next_locals h initial_locals in
  geminiResp st = last_answerA h /\
  groqResp st = latest_answerB h /\
  lastGeminiErr st = latest_errorA h /\
  lastGroqErr st = latest_errorB h /\
  attempt st = Z.of_nat (List.length h).
Proof.
  induction h as [|o h IH] using rev_ind; intros Hna.
  - cbn. repeat split.
  - rewrite never_agreed_app in Hna. apply andb_true_iff in Hna as [Hh Ho].
    specialize (IH Hh). cbn zeta in IH. destruct IH as (IA & IB & IEA & IEB & IN).
    cbn zeta. rewrite fold_next_locals_snoc.
    unfold last_answerA, latest_answerB, latest_errorA, latest_errorB in *.
    rewrite rev_app_distr, length_app. cbn [rev app List.length].
    cbn in Ho. rewrite andb_true_r in Ho.
    destruct o; cbn in Ho; try discriminate; cbn; rewrite ?IN;
      repeat split; auto; lia.
Qed.

Lemma after_loop_history (config : Config) (h : list Attempt) :
  never_agreed h = true ->
  after_loop config (fold_left next_locals h initial_locals) =
  exhausted_output formatResponse (MaxRetries config) h.
Proof.
  intros Hna. destruct (locals_of_history h Hna) as (A & B & EA & EB & _).
  unfold after_loop, exhausted_output, ExhaustedNoAnswers, ExhaustedWithAnswers, shown.
  rewrite A, B, EA, EB.
  destruct (last_answerA h), (latest_answerB h); reflexivity.
Qed.

Section RunFacts.
Context {U : Unicode} {C : Codec}.
Variable remote : Remote.
Variable question : string.
Variable config : Config.

Lemma remaining_initial :
  remaining config initial_locals = Z.to_nat (MaxRetries config).
Proof. unfold remaining. cbn. now rewrite Z.sub_0_r. Qed.


Lemma processQuestion_exhausted (w0 : Trace) :
  never_agreed (attempts remote question config w0) = true ->
  List.length (attempts remote question config w0) = Z.to_nat (MaxRetries config) /\
  exists wf,
    processQuestion remote question config w0 =
    (Done (exhausted_output formatResponse (MaxRetries config)
             (attempts remote question config w0)), wf).
Proof.
  intros Hna.
  destruct (retry_loop_exhausted remote question config (Z.to_nat (MaxRetries config))
              (S (Z.to_nat (MaxRetries config))) initial_locals w0
              remaining_initial ltac:(lia) Hna) as [L [wf R]].
  split; [exact L|]. exists wf. unfold processQuestion. rewrite R.
  fold (attempts remote question config w0). now rewrite after_loop_history.
Qed.

Lemma processQuestion_agree (w0 : Trace) (k : nat) (a b : Response) :
  nth_error (attempts remote question config w0) k = Some (Agree a b) ->
  List.length (attempts remote question config w0) = S k /\
  exists stk wk w1 w2 w3,
    nth_error (visited remote question config (Z.to_nat (MaxRetries config))
                 initial_locals w0) k = Some (stk, wk) /\
    attempt stk = Z.of_nat k /\
    getGeminiResponse remote question (GeminiKey config) wk = (Done (Val a), w1) /\
    getGroqResponse remote question (GroqKey config) w1 = (Done (Val b), w2) /\
    compareResponses remote (Content a) (Content b) (GeminiKey config) w2
      = (Done (Val true), w3) /\
    processQuestion remote question config w0 = (Done (Val (Content a)), w3).
Proof.
  intros Hk.
  destruct (retry_loop_agree remote question config (Z.to_nat (MaxRetries config))
              (S (Z.to_nat (MaxRetries config))) initial_locals w0 k a b
              remaining_initial ltac:(lia) Hk)
    as [L (stk & wk & w1 & w2 & w3 & V & A & EA & EB & EJ & R)].
  split; [exact L|]. exists stk, wk, w1, w2, w3. repeat split; auto.
Qed.

(** A judge call that returns a verdict made both of its remote calls, and
    nothing else. *)
Lemma compareResponses_trace (r1 r2 key : string) (w w' : Trace) (v : bool) :
  compareResponses remote r1 r2 key w = (Done (Val v), w') ->
  w' = EvGenerateContent "gemini-pro" (comparisonPrompt r1 r2) :: EvNewClient key :: w.
Proof.
  unfold compareResponses, bind, NewClient, GenerateContent.
  destruct (genai_NewClient remote w key); run_go; [discriminate|].
  destruct (genai_GenerateContent remote _ _ _) as [resp|e]; run_go; [|discriminate].
  split_first_text; run_go; [|discriminate].
  intros H; now injection H.
Qed.

End RunFacts.

(* ================================================================= *)
(** ** Facts about lists of attempts *)

Lemma visited_length {U : Unicode} {C : Codec} (remote : Remote) (question : string)
    (config : Config) (n : nat) :
  forall st w, (List.length (visited remote question config n st w) <= n)%nat.
Proof.
  induction n as [|n IH]; intros st w; cbn [visited List.length]; [lia|].
  destruct (loop_body remote question config st w) as [[[st'|r]|m|] w'];
    cbn [List.length]; try lia.
  specialize (IH st' w'). lia.
Qed.

Lemma attempts_length {U : Unicode} {C : Codec} (remote : Remote) (question : string)
    (config : Config) (w0 : Trace) :
  (List.length (attempts remote question config w0) <= Z.to_nat (MaxRetries config))%nat.
Proof. unfold attempts, outcomes. rewrite length_map. apply visited_length. Qed.

Lemma last_attempt_rev (h : list Attempt) (o : Attempt) :
  nth_error h (Nat.pred (List.length h)) = Some o -> exists r, rev h = o :: r.
Proof.
  destruct h as [|x h'] using rev_ind; [discriminate|].
  rewrite length_app, Nat.add_1_r, Nat.pred_succ.
  rewrite nth_error_app2, Nat.sub_diag by lia. cbn.
  intros H; injection H as ->. exists (rev h'). now rewrite rev_app_distr.
Qed.

Lemma forallb_rev {A} (f : A -> bool) (l : list A) :
  forallb f (rev l) = forallb f l.
Proof.
  induction l as [|x l IH]; [reflexivity|].
  cbn. rewrite forallb_app, IH. cbn. rewrite andb_true_r. apply andb_comm.
Qed.

Lemma gemini_failed_goes_on (h : list Attempt) :
  forallb is_gemini_failed h = true -> never_agreed h = true.
Proof.
  unfold never_agreed. rewrite !forallb_forall. intros H o Ho.
  specialize (H o Ho). now destruct o.
Qed.

Lemma all_gemini_failed_rev (r : list Attempt) :
  forallb is_gemini_failed r = true ->
  latest_answerB_rev r = None /\ latest_errorB_rev r = None.
Proof.
  induction r as [|o r IH]; [now split|].
  cbn [forallb]. intros H. apply andb_true_iff in H as [Ho Hr].
  destruct o; try discriminate. cbn. auto.
Qed.

Lemma getGeminiResponse_error_trace {U : Unicode} {C : Codec} (remote : Remote)
    (q key : string) (w w1 : Trace) (e : error) :
  getGeminiResponse remote q key w = (Done (Err e), w1) ->
  w1 = EvNewClient key :: w \/
  w1 = EvGenerateContent "gemini-pro" (gemini_enhancedPrompt q) :: EvNewClient key :: w.
Proof.
  unfold getGeminiResponse, bind, NewClient, GenerateContent.
  destruct (genai_NewClient remote w key); run_go.
  - intros H; injection H as _ <-. now left.
  - destruct (genai_GenerateContent remote _ _ _) as [resp|e']; run_go.
    + split_first_text; run_go; discriminate.
    + intros H; injection H as _ <-. now right.
Qed.

Lemma no_answer_goes_on (h : list Attempt) :
  forallb no_answer_from_B h = true -> never_agreed h = true.
Proof.
  unfold never_agreed. rewrite !forallb_forall. intros H o Ho.
  specialize (H o Ho). now destruct o.
Qed.

Lemma no_answer_from_B_rev (r : list Attempt) :
  forallb no_answer_from_B r = true -> latest_answerB_rev r = None.
Proof.
  induction r as [|o r IH]; [reflexivity|].
  cbn [forallb]. intros H. apply andb_true_iff in H as [Ho Hr].
  destruct o; try discriminate; cbn; auto.
Qed.

(* ================================================================= *)
(** ** [formatResponse] writes line breaks before the markers *)

Lemma string_length_app (s t : string) :
  String.length (s ++ t) = (String.length s + String.length t)%nat.
Proof. induction s as [|c s IH]; cbn; [reflexivity | now rewrite IH]. Qed.

Lemma prefix_split (p s : string) :
  prefix p s = true -> exists rest, s = p ++ rest.
Proof.
  revert s. induction p as [|a p IH]; intros s H.
  - exists s. reflexivity.
  - destruct s as [|c s]; [discriminate|]. cbn in H.
    destruct (ascii_dec a c) as [->|]; [|discriminate].
    destruct (IH s H) as [rest ->]. now exists rest.
Qed.

(** A pattern that cannot overlap itself is replaced at every occurrence:
    [ReplaceAll] then writes [ins] before each of them. *)
Lemma replace_is_insert (old ins : string) :
  old <> "" ->
  (forall rest, replace_from old (ins ++ old) 0 (old ++ rest) =
                ins ++ old ++ replace_from old (ins ++ old) 0 rest) ->
  (forall rest, insert_before old ins (old ++ rest) =
                ins ++ old ++ insert_before old ins rest) ->
  forall s, replace_from old (ins ++ old) 0 s = insert_before old ins s.
Proof.
  intros Hne Hrep Hins s.
  remember (String.length s) as n eqn:Hn.
  revert s Hn. induction n as [n IH] using lt_wf_ind. intros s Hn.
  destruct s as [|c s']; [reflexivity|].
  destruct (prefix old (String c s')) eqn:P.
  - destruct (prefix_split _ _ P) as [rest E]. rewrite E, Hrep, Hins.
    do 2 f_equal. apply (IH (String.length rest)); [|reflexivity].
    subst n. rewrite E, string_length_app.
    destruct old; [congruence | cbn; lia].
  - cbn [replace_from insert_before]. rewrite P. cbn [append]. f_equal.
    apply (IH (String.length s')); [subst n; cbn; lia | reflexivity].
Qed.

Lemma replace_Option (s : string) :
  ReplaceAll s "Option" (nl ++ "Option") = insert_before "Option" nl s.
Proof.
  apply (replace_is_insert "Option" nl);
    [discriminate | intros [|c r]; reflexivity | intros [|c r]; reflexivity].
Qed.

Lemma replace_Summary (s : string) :
  ReplaceAll s "Summary" (nl ++ nl ++ "Summary") = insert_before "Summary" (nl ++ nl) s.
Proof.
  apply (replace_is_insert "Summary" (nl ++ nl));
    [discriminate | intros [|c r]; reflexivity | intros [|c r]; reflexivity].
Qed.

(** Writing newlines before [Option] does not make or break an occurrence
    of a pattern that holds neither [O] nor a newline. *)
Lemma prefix_after_Option_breaks (p : string) :
  occurs_in "O" p = false -> occurs_in "010" p = false ->
  forall s, prefix p (insert_before "Option" nl s) = prefix p s.
Proof.
  induction p as [|a p IH]; intros HO Hnl s.
  - now destruct (insert_before "Option" nl s), s.
  - cbn [occurs_in] in HO, Hnl. apply orb_false_iff in HO as [HO HO'].
    apply orb_false_iff in Hnl as [Hnl Hnl'].
    apply Ascii.eqb_neq in HO, Hnl.
    destruct s as [|c s']; [reflexivity|].
    cbn [insert_before].
    destruct (prefix "Option" (String c s')) eqn:P.
    + destruct (prefix_split _ _ P) as [rest E]. injection E as -> _.
      cbn. destruct (ascii_dec a "010"); [congruence|].
      destruct (ascii_dec a "O"); [congruence | reflexivity].
    + cbn. destruct (ascii_dec a c); [now apply IH | reflexivity].
Qed.

Lemma breaks_at_Option (rest : string) :
  insert_before "Summary" (nl ++ nl) (insert_before "Option" nl ("Option" ++ rest)) =
  nl ++ "Option" ++ insert_before "Summary" (nl ++ nl) (insert_before "Option" nl rest) /\
  break_before_markers ("Option" ++ rest) = nl ++ "Option" ++ break_before_markers rest.
Proof. destruct rest; split; reflexivity. Qed.

Lemma breaks_at_Summary (rest : string) :
  insert_before "Summary" (nl ++ nl) (insert_before "Option" nl ("Summary" ++ rest)) =
  nl ++ nl ++ "Summary" ++
  insert_before "Summary" (nl ++ nl) (insert_before "Option" nl rest) /\
  break_before_markers ("Summary" ++ rest) =
  nl ++ nl ++ "Summary" ++ break_before_markers rest.
Proof.
  split.
  - change (insert_before "Option" nl ("Summary" ++ rest))
      with ("Summary" ++ insert_before "Option" nl rest).
    destruct (insert_before "Option" nl rest); reflexivity.
  - destruct rest; reflexivity.
Qed.

(** [formatResponse] does what the claim says of it. *)
Lemma formatResponse_breaks (s : string) :
  formatResponse s = break_before_markers s.
Proof.
  unfold formatResponse. cbv zeta. rewrite replace_Option, replace_Summary.
  remember (String.length s) as n eqn:Hn.
  revert s Hn. induction n as [n IH] using lt_wf_ind. intros s Hn.
  destruct s as [|c s']; [reflexivity|].
  destruct (prefix "Option" (String c s')) eqn:PO.
  - destruct (prefix_split _ _ PO) as [rest E]. rewrite E.
    destruct (breaks_at_Option rest) as [-> ->].
    do 2 f_equal. apply (IH (String.length rest)); [|reflexivity].
    subst n. rewrite E, string_length_app. cbn. lia.
  - destruct (prefix "Summary" (String c s')) eqn:PS.
    + destruct (prefix_split _ _ PS) as [rest E]. rewrite E.
      destruct (breaks_at_Summary rest) as [-> ->].
      do 3 f_equal. apply (IH (String.length rest)); [|reflexivity].
      subst n. rewrite E, string_length_app. cbn. lia.
    + pose proof (prefix_after_Option_breaks "Summary" eq_refl eq_refl (String c s')) as Q.
      rewrite PS in Q.
      cbn [break_before_markers]. rewrite PO, PS.
      cbn [insert_before] in Q |- *. rewrite PO in Q |- *.
      cbn [append] in Q |- *. cbn [insert_before]. rewrite Q. cbn [append]. f_equal.
      apply (IH (String.length s')); [subst n; cbn; lia | reflexivity].
Qed.

Lemma shown_formatResponse (r : option Response) :
  shown formatResponse r = shown break_before_markers r.
Proof. destruct r; cbn; [apply formatResponse_breaks | reflexivity]. Qed.

(* ================================================================= *)
(** ** The session when every answer can be read *)

Lemma first_text_usable (resp : GenerateContentResponse) (w : Trace) :
  has_first_text resp = true -> exists t, first_text resp w = (Done t, w).
Proof.
  unfold has_first_text, first_text, bind, index0, deref, assert_Text, ret, panic.
  destruct resp as [cs]; destruct cs as [|[content] cs]; cbn; try discriminate.
  destruct content as [[ps]|]; cbn; try discriminate.
  destruct ps as [|[t|m d|f] ps]; cbn; try discriminate; eauto.
Qed.

Section SessionFacts.
Context {U : Unicode} {C : Codec}.
Variable remote : Remote.
Hypothesis usable : answers_usable remote.

Lemma getGeminiResponse_done (q key : string) (w : Trace) :
  exists r w', getGeminiResponse remote q key w = (Done r, w').
Proof.
  unfold getGeminiResponse, bind, NewClient, GenerateContent.
  destruct (genai_NewClient remote w key); run_go; eauto.
  destruct (genai_GenerateContent remote _ _ _) as [resp|e] eqn:G; run_go; eauto.
  destruct (first_text_usable resp (EvGenerateContent "gemini-pro" (gemini_enhancedPrompt q)
                                      :: EvNewClient key :: w) (usable _ _ _ _ G))
    as [t ->]. eauto.
Qed.

Lemma compareResponses_done (r1 r2 key : string) (w : Trace) :
  exists r w', compareResponses remote r1 r2 key w = (Done r, w').
Proof.
  unfold compareResponses, bind, NewClient, GenerateContent.
  destruct (genai_NewClient remote w key); run_go; eauto.
  destruct (genai_GenerateContent remote _ _ _) as [resp|e] eqn:G; run_go; eauto.
  destruct (first_text_usable resp (EvGenerateContent "gemini-pro" (comparisonPrompt r1 r2)
                                      :: EvNewClient key :: w) (usable _ _ _ _ G))
    as [t ->]. eauto.
Qed.

Lemma attempt_never_crashes (question : string) (config : Config) (w : Trace) :
  is_crashed (attempt_outcome remote question config w) = false.
Proof.
  unfold attempt_outcome.
  destruct (getGeminiResponse_done question (GeminiKey config) w) as ([a|e] & w1 & ->);
    [|reflexivity].
  destruct (getGroqResponse_done remote question (GroqKey config) w1) as ([b|e] & w2 & ->);
    [|reflexivity].
  destruct (compareResponses_done (Content a) (Content b) (GeminiKey config) w2)
    as ([[|]|e] & w3 & ->); reflexivity.
Qed.

Lemma retry_loop_done (question : string) (config : Config) (n : nat) :
  forall (fuel : nat) (st : Locals) (w : Trace),
    remaining config st = n -> (n < fuel)%nat ->
    exists r w', retry_loop remote fuel question config st w = (Done r, w').
Proof.
  induction n as [|n IH]; intros [|fuel] st w Hn Hf; try lia.
  - rewrite retry_loop_exit by assumption. eauto.
  - rewrite (retry_loop_enter _ _ _ _ _ _ n) by assumption.
    pose proof (attempt_never_crashes question config w) as NC.
    destruct (goes_on (attempt_outcome remote question config w)) eqn:G.
    + destruct (loop_body_goes_on remote question config st w G) as [w' ->].
      apply IH; [now apply remaining_next | lia].
    + unfold goes_on in G. rewrite NC in G.
      destruct (attempt_outcome remote question config w) eqn:O; try discriminate.
      destruct (loop_body_agree remote question config st w a b O)
        as (w1 & w2 & w3 & _ & _ & _ & ->). eauto.
Qed.

(** With usable answers [processQuestion] returns: every failure of a
    backend or of the judge is an [error] value. *)
Lemma processQuestion_done (question : string) (config : Config) (w : Trace) :
  exists r w', processQuestion remote question config w = (Done r, w').
Proof.
  unfold processQuestion.
  apply (retry_loop_done question config (Z.to_nat (MaxRetries config)));
    [apply remaining_initial | lia].
Qed.

(** With usable answers the interactive loop goes on until the user types
    [exit]: no read error, backend error or judge error ends it. *)
Lemma read_loop_goes_on (config : Config) (stdin : list ReadResult) :
  forall (questionBuilder : string) (w : Trace),
    exists status w',
      read_loop remote config stdin questionBuilder w = (Done status, w') /\
      (status = AwaitingInput \/ status = Exited 0).
Proof.
  induction stdin as [|[line [err|]] stdin IH]; intros qb w; cbn [read_loop].
  - unfold ret. eauto.
  - destruct (err =? "EOF")%string.
    + destruct (TrimSpace qb =? "")%string.
      * unfold ask. run_go. apply IH.
      * unfold bind at 1.
        destruct (processQuestion_done (TrimSpace qb) config w) as ([resp|e] & w' & ->);
          unfold ask; run_go; apply IH.
    + run_go. apply IH.
  - destruct (TrimSpace (ToLower line) =? "exit")%string.
    + unfold fmt_Println. run_go. eauto.
    + apply IH.
Qed.

(** With usable answers [main] ends with status 1 exactly when the
    [.env] file cannot be loaded or a key is missing; otherwise it goes on
    until the user types [exit]. *)
Lemma main_fatal_only_at_startup (env : Startup) (stdin : list ReadResult) (w : Trace) :
  exists status w',
    main remote env stdin w = (Done status, w') /\
    (status = Exited 1 <->
     dotenv_Load env <> None \/ GEMINI_API_KEY env = "" \/ GROQ_API_KEY env = "").
Proof.
  unfold main.
  destruct (dotenv_Load env) as [e|].
  { unfold log_Fatal. run_go. eexists _, _. split; [reflexivity|].
    split; [left; discriminate | reflexivity]. }
  destruct (String.eqb_spec (GEMINI_API_KEY env) "") as [EG|NG]; cbn [orb].
  { unfold log_Fatal. run_go. eexists _, _. split; [reflexivity|].
    split; [now right; left | reflexivity]. }
  destruct (String.eqb_spec (GROQ_API_KEY env) "") as [EQ|NQ].
  { unfold log_Fatal. run_go. eexists _, _. split; [reflexivity|].
    split; [now right; right | reflexivity]. }
  unfold fmt_Println, ask. run_go.
  match goal with
  | |- context [read_loop remote ?c stdin "" ?w0] =>
      destruct (read_loop_goes_on c stdin "" w0) as (status & w' & -> & Hs)
  end.
  exists status, w'. split; [reflexivity|].
  split.
  - intros ->. destruct Hs; discriminate.
  - intros [H|[H|H]]; congruence.
Qed.

End SessionFacts.

(* ================================================================= *)
(** ** [TrimSpace] and [ToLower] on ASCII text *)

Lemma asciiSpace_is_ascii (c : ascii) : asciiSpace c = true -> byte_lt c RuneSelf = true.
Proof.
  destruct c as [[] [] [] [] [] [] [] []]; cbn; intros H; try discriminate H; reflexivity.
Qed.

Lemma lower_letter_of_true (c : ascii) :
  (lowerASCII c = "t" \/ lowerASCII c = "r" \/ lowerASCII c = "u" \/ lowerASCII c = "e")%char ->
  asciiSpace c = false /\ byte_lt c RuneSelf = true.
Proof.
  destruct c as [[] [] [] [] [] [] [] []]; cbn; intros [H|[H|[H|H]]];
    try discriminate H; split; reflexivity.
Qed.

Lemma string_app_nil (s : string) : s ++ "" = s.
Proof. induction s as [|c s IH]; cbn; [reflexivity | now rewrite IH]. Qed.

Lemma string_app_assoc (s t u : string) : (s ++ t) ++ u = s ++ t ++ u.
Proof. induction s as [|c s IH]; cbn; [reflexivity | now rewrite IH]. Qed.

Lemma rev_string_app (s t : string) : rev_string (s ++ t) = rev_string t ++ rev_string s.
Proof.
  induction s as [|c s IH]; cbn.
  - now rewrite string_app_nil.
  - now rewrite IH, string_app_assoc.
Qed.

Lemma rev_string_involutive (s : string) : rev_string (rev_string s) = s.
Proof.
  induction s as [|c s IH]; cbn; [reflexivity|].
  now rewrite rev_string_app, IH.
Qed.

Lemma isASCII_app (s t : string) : isASCII (s ++ t) = isASCII s && isASCII t.
Proof.
  induction s as [|c s IH]; cbn; [reflexivity|]. now rewrite IH, andb_assoc.
Qed.

Lemma isASCII_rev (s : string) : isASCII (rev_string s) = isASCII s.
Proof.
  induction s as [|c s IH]; cbn; [reflexivity|].
  rewrite isASCII_app, IH. cbn. rewrite andb_true_r. apply andb_comm.
Qed.

Lemma all_space_app (s t : string) : all_space (s ++ t) = all_space s && all_space t.
Proof.
  induction s as [|c s IH]; cbn; [reflexivity|]. now rewrite IH, andb_assoc.
Qed.

Lemma all_space_rev (s : string) : all_space (rev_string s) = all_space s.
Proof.
  induction s as [|c s IH]; cbn; [reflexivity|].
  rewrite all_space_app, IH. cbn. rewrite andb_true_r. apply andb_comm.
Qed.

Section TrimFacts.
Context {U : Unicode}.

Lemma trim_right_rev_cut (x : string) :
  isASCII x = true ->
  exists sp rest, x = sp ++ rest /\ all_space sp = true /\
                  trim_right_rev x = rev_string rest.
Proof.
  induction x as [|c x IH]; intros HA.
  - exists "", "". repeat split.
  - cbn in HA. apply andb_true_iff in HA as [Hc HA]. cbn [trim_right_rev].
    rewrite Hc. cbn [negb].
    destruct (asciiSpace c) eqn:S.
    + destruct (IH HA) as (sp & rest & -> & Hsp & E).
      exists (String c sp), rest. cbn. rewrite S, Hsp. repeat split. exact E.
    + exists "", (String c x). repeat split.
Qed.

Lemma TrimSpace_cut (s : string) :
  isASCII s = true ->
  exists l r, s = l ++ TrimSpace s ++ r /\ all_space l = true /\ all_space r = true.
Proof.
  induction s as [|c s IH]; intros HA.
  - exists "", "". repeat split.
  - pose proof HA as HA'. cbn in HA. apply andb_true_iff in HA as [Hc HA].
    cbn [TrimSpace]. rewrite Hc. cbn [negb].
    destruct (asciiSpace c) eqn:S.
    + destruct (IH HA) as (l & r & E & Hl & Hr).
      exists (String c l), r. cbn. rewrite S, Hl. repeat split; auto. now rewrite <- E.
    + rewrite <- isASCII_rev in HA'.
      destruct (trim_right_rev_cut _ HA') as (sp & rest & E & Hsp & ->).
      exists "", (rev_string sp). rewrite all_space_rev. repeat split; auto.
      cbn [append]. rewrite <- rev_string_app, <- E. now rewrite rev_string_involutive.
Qed.

Lemma trim_right_rev_spaces (sp y : string) :
  all_space sp = true -> trim_right_rev (sp ++ y) = trim_right_rev y.
Proof.
  induction sp as [|c sp IH]; intros H; [reflexivity|].
  cbn in H. apply andb_true_iff in H as [Hc H]. cbn [append trim_right_rev].
  now rewrite (asciiSpace_is_ascii _ Hc), Hc, IH.
Qed.

Lemma TrimSpace_spaces (l s : string) :
  all_space l = true -> TrimSpace (l ++ s) = TrimSpace s.
Proof.
  induction l as [|c l IH]; intros H; [reflexivity|].
  cbn in H. apply andb_true_iff in H as [Hc H]. cbn [append TrimSpace].
  now rewrite (asciiSpace_is_ascii _ Hc), Hc, IH.
Qed.

(** On ASCII text the judge says true exactly for the word [true] in any
    letter case, with ASCII white space around it. *)
Lemma judge_true_on_ascii (t : string) :
  isASCII t = true ->
  (ToLower (TrimSpace t) = "true" <->
   exists l m r, t = l ++ m ++ r /\ all_space l = true /\ all_space r = true /\
                 map_bytes lowerASCII m = "true").
Proof.
  intros HA. split.
  - intros H. destruct (TrimSpace_cut t HA) as (l & r & E & Hl & Hr).
    exists l, (TrimSpace t), r. repeat split; auto.
    rewrite E in HA. rewrite !isASCII_app in HA.
    apply andb_true_iff in HA as [_ HA]. apply andb_true_iff in HA as [HT _].
    unfold ToLower in H. now rewrite HT in H.
  - intros (l & m & r & -> & Hl & Hr & Hm).
    rewrite (TrimSpace_spaces l _ Hl).
    destruct m as [|c1 [|c2 [|c3 [|c4 [|c5 m]]]]]; try discriminate Hm.
    cbn in Hm. injection Hm as H1 H2 H3 H4.
    destruct (lower_letter_of_true c1 (or_introl H1)) as [S1 A1].
    destruct (lower_letter_of_true c2 (or_intror (or_introl H2))) as [S2 A2].
    destruct (lower_letter_of_true c3 (or_intror (or_intror (or_introl H3)))) as [S3 A3].
    destruct (lower_letter_of_true c4 (or_intror (or_intror (or_intror H4)))) as [S4 A4].
    cbn [append TrimSpace]. rewrite A1, S1. cbn [negb].
    change (String c1 (String c2 (String c3 (String c4 r))))
      with (String c1 (String c2 (String c3 (String c4 ""))) ++ r).
    rewrite rev_string_app, trim_right_rev_spaces by now rewrite all_space_rev.
    cbn [rev_string append trim_right_rev]. rewrite A4, S4. cbn [negb].
    unfold ToLower. cbn [rev_string append isASCII]. rewrite A1, A2, A3, A4.
    cbn [andb map_bytes]. now rewrite H1, H2, H3, H4.
Qed.

End TrimFacts.

(* ================================================================= *)
(** * The claims *)

(** C1. If on attempt [k] Backend A answers [a], Backend B answers [b] and
    the judge returns true, then [processQuestion] returns exactly the
    content of [a].  [k] is within the budget and attempt [k] is the last
    attempt made, whatever budget remains; the run ends with the three
    calls of that attempt, the judge's call being its last event: no
    further attempt or backend call follows. *)
Theorem agreement_returns_backend_A_answer {U : Unicode} {C : Codec}
    (remote : Remote) (question : string) (config : Config) (w0 : Trace)
    (k : nat) (a b : Response) :
  nth_error (attempts remote question config w0) k = Some (Agree a b) ->
  Z.of_nat k < MaxRetries config /\
  List.length (attempts remote question config w0) = S k /\
  exists st w w1 w2,
    nth_error (visited remote question config (Z.to_nat (MaxRetries config))
                 initial_locals w0) k = Some (st, w) /\
    attempt st = Z.of_nat k /\
    getGeminiResponse remote question (GeminiKey config) w = (Done (Val a), w1) /\
    getGroqResponse remote question (GroqKey config) w1 = (Done (Val b), w2) /\
    processQuestion remote question config w0 =
    (Done (Val (Content a)),
     EvGenerateContent "gemini-pro" (comparisonPrompt (Content a) (Content b))
       :: EvNewClient (GeminiKey config) :: w2).
Proof.
  intros Hk.
  destruct (processQuestion_agree remote question config w0 k a b Hk)
    as [L (stk & wk & w1 & w2 & w3 & V & A & EA & EB & EJ & R)].
  pose proof (attempts_length remote question config w0) as B.
  split; [lia|]. split; [exact L|].
  exists stk, wk, w1, w2. repeat split; auto.
  rewrite R. f_equal.
  exact (compareResponses_trace remote _ _ _ _ _ _ EJ).
Qed.

(** The first scenario of the specification, and a run that agrees on its
    third attempt with two attempts of budget left. *)
Lemma agreement_returns_backend_A_answer_witness :
  fst (processQuestion (U:=bytes_only) (C:=plain_codec) scenario_agree
         "2+2=? A) 3 B) 4" (config_of 1) []) = Done (Val "B is correct") /\
  fst (processQuestion (U:=bytes_only) (C:=plain_codec) scenario_third
         "2+2=? A) 3 B) 4" (config_of 5) []) = Done (Val "B is correct") /\
  List.length (attempts (U:=bytes_only) (C:=plain_codec) scenario_third
                 "2+2=? A) 3 B) 4" (config_of 5) []) = 3%nat.
Proof.
  destruct (agreement_returns_backend_A_answer (U:=bytes_only) (C:=plain_codec)
              scenario_agree "2+2=? A) 3 B) 4" (config_of 1) [] 0
              (gemini_says "B is correct") (groq_says "B) 4 is correct") eq_refl)
    as (_ & _ & st & w & w1 & w2 & _ & _ & _ & _ & R).
  destruct (agreement_returns_backend_A_answer (U:=bytes_only) (C:=plain_codec)
              scenario_third "2+2=? A) 3 B) 4" (config_of 5) [] 2
              (gemini_says "B is correct") (groq_says "B) 4 is correct") eq_refl)
    as (_ & L & st' & w' & w1' & w2' & _ & _ & _ & _ & R').
  rewrite R, R'. split; [reflexivity | split; [reflexivity | exact L]].
Defined.

(** C2, as the code has it.  If no attempt agrees (and none panics), the
    attempts made are exactly [MaxRetries] (none when it is negative), and
    the result is the exhausted output built from: Backend A's answer in
    the last attempt, Backend B's answer in the latest attempt that called
    Backend B, and the latest error of each backend over all attempts. *)
Theorem exhausted_output_from_latest_values {U : Unicode} {C : Codec}
    (remote : Remote) (question : string) (config : Config) (w0 : Trace) :
  never_agreed (attempts remote question config w0) = true ->
  List.length (attempts remote question config w0) = Z.to_nat (MaxRetries config) /\
  fst (processQuestion remote question config w0) =
  Done (match last_answerA (attempts remote question config w0),
              latest_answerB (attempts remote question config w0) with
        | None, None =>
            ExhaustedNoAnswers (MaxRetries config)
              (latest_errorA (attempts remote question config w0))
              (latest_errorB (attempts remote question config w0))
        | a, b => ExhaustedWithAnswers formatResponse (MaxRetries config) a b
        end).
Proof.
  intros Hna.
  destruct (processQuestion_exhausted remote question config w0 Hna) as [L [wf R]].
  split; [exact L|]. rewrite R. reflexivity.
Qed.

Lemma exhausted_output_from_latest_values_witness :
  List.length (attempts (U:=bytes_only) (C:=plain_codec) scenario_differ
                 "2+2=? A) 3 B) 4" (config_of 2) []) = 2%nat /\
  fst (processQuestion (U:=bytes_only) (C:=plain_codec) scenario_differ
         "2+2=? A) 3 B) 4" (config_of 2) []) =
  Done (ExhaustedWithAnswers formatResponse 2
          (Some (gemini_says "Option B. Summary: B"))
          (Some (groq_says "It is Option B"))).
Proof.
  exact (exhausted_output_from_latest_values (U:=bytes_only) (C:=plain_codec)
           scenario_differ "2+2=? A) 3 B) 4" (config_of 2) [] eq_refl).
Defined.

(** C2 as stated fails.  In the first run Backend B fails in the first
    attempt and Backend A in the second, last one: the error returned
    carries Backend B's error of the first attempt.  In the second run both
    backends answer in the first attempt and Backend A fails in the last:
    the output shows Backend B's answer of the first attempt.  Both differ
    from the output built from the last attempt alone. *)
Lemma earlier_attempt_survives :
  (late_A_failure_attempts =
     [GroqFailed (gemini_says "A") "failed to send request: connection refused";
      GeminiFailed "failed to generate Gemini response: timeout"] /\
   late_A_failure_result =
     Done (Err "failed to get responses after 2 attempts. Gemini error: failed to generate Gemini response: timeout, Groq error: failed to send request: connection refused") /\
   late_A_failure_result <>
     Done (exhausted_output formatResponse 2 (last_attempt_only late_A_failure_attempts)))
  /\
  (stale_attempts =
     [Differ (gemini_says "A") (groq_says "B");
      GeminiFailed "failed to generate Gemini response: timeout"] /\
   stale_result =
     Done (Val ("Responses after 2 attempts:" ++ nl ++ nl ++
                "Gemini Response:" ++ nl ++ "Error getting response" ++ nl ++ nl ++
                "Groq Response:" ++ nl ++ "B")) /\
   stale_result <>
     Done (exhausted_output formatResponse 2 (last_attempt_only stale_attempts))).
Proof.
  repeat split; vm_compute; discriminate.
Qed.

(** C3, as the code has it.  If Backend A fails on every attempt, the
    result is the error that embeds Backend A's last error and nil for
    Backend B.  If Backend B never answers (it fails on every attempt that
    reaches it), the result is that error, with the last error of each
    backend, when Backend A failed on the last attempt or no attempt was
    made; when Backend A answered on the last attempt, the result is the
    side-by-side string with that answer and the placeholder for
    Backend B. *)
Theorem exhausted_without_backend_B {U : Unicode} {C : Codec}
    (remote : Remote) (question : string) (config : Config) (w0 : Trace) :
  (forallb is_gemini_failed (attempts remote question config w0) = true ->
   fst (processQuestion remote question config w0) =
   Done (ExhaustedNoAnswers (MaxRetries config)
           (latest_errorA (attempts remote question config w0)) None))
  /\
  (forallb no_answer_from_B (attempts remote question config w0) = true ->
   fst (processQuestion remote question config w0) =
   Done (match last_answerA (attempts remote question config w0) with
         | None =>
             ExhaustedNoAnswers (MaxRetries config)
               (latest_errorA (attempts remote question config w0))
               (latest_errorB (attempts remote question config w0))
         | Some a =>
             Val ("Responses after " ++ fmt_d (MaxRetries config) ++ " attempts:" ++
                  nl ++ nl ++ "Gemini Response:" ++ nl ++ formatResponse (Content a) ++
                  nl ++ nl ++ "Groq Response:" ++ nl ++ "Error getting response")
         end)).
Proof.
  split; intros Hall.
  - destruct (processQuestion_exhausted remote question config w0
                (gemini_failed_goes_on _ Hall)) as [_ [wf R]].
    rewrite R. cbn [fst]. f_equal.
    rewrite <- forallb_rev in Hall.
    destruct (all_gemini_failed_rev _ Hall) as [HB HEB].
    unfold exhausted_output, last_answerA, latest_answerB, latest_errorB.
    rewrite HB, HEB.
    destruct (rev (attempts remote question config w0)) as [|o r]; [reflexivity|].
    cbn [forallb] in Hall. apply andb_true_iff in Hall as [Ho _].
    now destruct o.
  - destruct (processQuestion_exhausted remote question config w0
                (no_answer_goes_on _ Hall)) as [_ [wf R]].
    rewrite R. cbn [fst]. f_equal.
    rewrite <- forallb_rev in Hall.
    unfold exhausted_output, latest_answerB.
    rewrite (no_answer_from_B_rev _ Hall).
    now destruct (last_answerA (attempts remote question config w0)).
Qed.

Lemma exhausted_without_backend_B_witness :
  fst (processQuestion (U:=bytes_only) (C:=plain_codec) scenario_A_down "2+2=?"
         (config_of 3) []) =
  Done (ExhaustedNoAnswers 3 (Some "failed to generate Gemini response: timeout 3") None) /\
  fst (processQuestion (U:=bytes_only) (C:=plain_codec) scenario_B_down "2+2=?"
         (config_of 1) []) =
  Done (Val ("Responses after 1 attempts:" ++ nl ++ nl ++
             "Gemini Response:" ++ nl ++ nl ++ "Option B" ++ nl ++ nl ++
             "Groq Response:" ++ nl ++ "Error getting response")).
Proof.
  split.
  - exact (proj1 (exhausted_without_backend_B (U:=bytes_only) (C:=plain_codec)
                    scenario_A_down "2+2=?" (config_of 3) []) eq_refl).
  - exact (proj2 (exhausted_without_backend_B (U:=bytes_only) (C:=plain_codec)
                    scenario_B_down "2+2=?" (config_of 1) []) eq_refl).
Defined.

(** C3 as stated fails: Backend B fails on the only attempt, and the
    result is a formatted string, not an error. *)
Lemma backend_B_failure_gives_string :
  B_down_attempts =
    [GroqFailed (gemini_says "Option B") "failed to send request: connection refused"] /\
  forallb is_groq_failed B_down_attempts = true /\
  B_down_result =
    Done (Val ("Responses after 1 attempts:" ++ nl ++ nl ++
               "Gemini Response:" ++ nl ++ nl ++ "Option B" ++ nl ++ nl ++
               "Groq Response:" ++ nl ++ "Error getting response")) /\
  forall lastErrorA lastErrorB,
    B_down_result <> Done (ExhaustedNoAnswers 1 lastErrorA lastErrorB).
Proof.
  repeat split. intros ea eb. vm_compute. discriminate.
Qed.

(** C4. When the judge's generation call succeeds and the response reads
    [t], [compareResponses] returns true if [t], trimmed and lowercased,
    is the string [true], and false in every other case; it does not
    return an error. *)
Theorem judge_is_literal_true {U : Unicode} (remote : Remote)
    (resp1 resp2 geminiKey : string) (w : Trace)
    (resp : GenerateContentResponse) (c : Candidate) (cs : list Candidate)
    (content : GenaiContent) (ps : list Part) (t : string) :
  genai_NewClient remote w geminiKey = None ->
  genai_GenerateContent remote (EvNewClient geminiKey :: w) "gemini-pro"
    (comparisonPrompt resp1 resp2) = Val resp ->
  Candidates resp = c :: cs ->
  CandidateContent c = Some content ->
  Parts content = Text t :: ps ->
  (ToLower (TrimSpace t) = "true" ->
   fst (compareResponses remote resp1 resp2 geminiKey w) = Done (Val true)) /\
  (ToLower (TrimSpace t) <> "true" ->
   fst (compareResponses remote resp1 resp2 geminiKey w) = Done (Val false)).
Proof.
  intros HC HG Hc Hcontent Hp.
  assert (E : fst (compareResponses remote resp1 resp2 geminiKey w) =
              Done (Val (ToLower (TrimSpace t) =? "true")%string)).
  { unfold compareResponses, bind, NewClient, GenerateContent. rewrite HC. run_go.
    rewrite HG. run_go.
    unfold first_text, index0, deref, assert_Text. run_go.
    rewrite Hc. run_go. rewrite Hcontent. run_go. rewrite Hp. run_go. reflexivity. }
  rewrite E. split; intros H.
  - now rewrite (proj2 (String.eqb_eq _ _) H).
  - now rewrite (proj2 (String.eqb_neq _ _) H).
Qed.

(** The verdicts the specification lists, whatever the Unicode tables:
    [True.], [no], the empty text and an explanation give false; [true]
    in any case and within ASCII white space gives true. *)
Lemma judge_verdict_examples {U : Unicode} :
  (ToLower (TrimSpace "True.") =? "true")%string = false /\
  (ToLower (TrimSpace "no") =? "true")%string = false /\
  (ToLower (TrimSpace "") =? "true")%string = false /\
  (ToLower (TrimSpace "yes, they are equivalent") =? "true")%string = false /\
  (ToLower (TrimSpace "true") =? "true")%string = true /\
  (ToLower (TrimSpace (" TRUE " ++ nl)) =? "true")%string = true.
Proof. repeat split. Qed.

Lemma judge_is_literal_true_witness :
  fst (compareResponses (U:=bytes_only)
         (scripted [text_reply "True."] []) "B is correct" "B) 4 is correct" "gk" [])
  = Done (Val false) /\
  fst (compareResponses (U:=bytes_only)
         (scripted [text_reply (" TRUE " ++ nl)] []) "B is correct" "B) 4 is correct" "gk" [])
  = Done (Val true).
Proof.
  split.
  - refine (proj2 (judge_is_literal_true (U:=bytes_only)
                     (scripted [text_reply "True."] []) "B is correct" "B) 4 is correct"
                     "gk" [] _ _ _ _ _ "True." eq_refl eq_refl eq_refl eq_refl eq_refl) _).
    discriminate.
  - exact (proj1 (judge_is_literal_true (U:=bytes_only)
                    (scripted [text_reply (" TRUE " ++ nl)] [])
                    "B is correct" "B) 4 is correct"
                    "gk" [] _ _ _ _ _ (" TRUE " ++ nl)
                    eq_refl eq_refl eq_refl eq_refl eq_refl) eq_refl).
Defined.

(** C5. If Backend A's call fails on an attempt, the pass makes no other
    call: it logs the error, records it as Backend A's last error, leaves
    Backend B's variables alone and goes to the next attempt number.  And
    if Backend A fails on every attempt, the last of them with [e], all
    [MaxRetries] attempts are made and the error returned carries [e] for
    Backend A and nil for Backend B. *)
Theorem backend_A_failure_consumes_attempt {U : Unicode} {C : Codec}
    (remote : Remote) (question : string) (config : Config) :
  (forall (st : Locals) (w w1 : Trace) (e : error),
     getGeminiResponse remote question (GeminiKey config) w = (Done (Err e), w1) ->
     (w1 = EvNewClient (GeminiKey config) :: w \/
      w1 = EvGenerateContent "gemini-pro" (gemini_enhancedPrompt question)
             :: EvNewClient (GeminiKey config) :: w) /\
     loop_body remote question config st w =
     (Done (Continue {| geminiResp := None; groqResp := groqResp st;
                        lastGeminiErr := Some e; lastGroqErr := lastGroqErr st;
                        attempt := attempt st + 1 |}),
      EvLog ("Attempt " ++ fmt_d (attempt st + 1) ++ ": Gemini API error: " ++ e) :: w1))
  /\
  (forall (w0 : Trace) (e : error),
     forallb is_gemini_failed (attempts remote question config w0) = true ->
     nth_error (attempts remote question config w0)
               (Nat.pred (Z.to_nat (MaxRetries config))) = Some (GeminiFailed e) ->
     List.length (attempts remote question config w0) = Z.to_nat (MaxRetries config) /\
     fst (processQuestion remote question config w0) =
     Done (Err ("failed to get responses after " ++ fmt_d (MaxRetries config) ++
                " attempts. Gemini error: " ++ e ++ ", Groq error: <nil>"))).
Proof.
  split.
  - intros st w w1 e H. split.
    + exact (getGeminiResponse_error_trace remote _ _ _ _ _ H).
    + unfold loop_body, bind. rewrite H. run_go. reflexivity.
  - intros w0 e Hall Hlast.
    destruct (processQuestion_exhausted remote question config w0
                (gemini_failed_goes_on _ Hall)) as [L [wf R]].
    split; [exact L|]. rewrite R. cbn [fst]. do 2 f_equal.
    rewrite <- L in Hlast. destruct (last_attempt_rev _ _ Hlast) as [r Hr].
    rewrite <- forallb_rev in Hall.
    destruct (all_gemini_failed_rev _ Hall) as [HB HEB].
    unfold exhausted_output, last_answerA, latest_answerB, latest_errorA, latest_errorB.
    rewrite HB, HEB, Hr. reflexivity.
Qed.

Lemma backend_A_failure_consumes_attempt_witness :
  loop_body (U:=bytes_only) (C:=plain_codec) scenario_A_down "2+2=?" (config_of 3)
    initial_locals [] =
  (Done (Continue {| geminiResp := None; groqResp := None;
                     lastGeminiErr := Some "failed to generate Gemini response: timeout 1";
                     lastGroqErr := None; attempt := 1 |}),
   [EvLog "Attempt 1: Gemini API error: failed to generate Gemini response: timeout 1";
    EvGenerateContent "gemini-pro" (gemini_enhancedPrompt "2+2=?");
    EvNewClient "gk"]) /\
  fst (processQuestion (U:=bytes_only) (C:=plain_codec) scenario_A_down "2+2=?"
         (config_of 3) []) =
  Done (Err "failed to get responses after 3 attempts. Gemini error: failed to generate Gemini response: timeout 3, Groq error: <nil>").
Proof.
  destruct (backend_A_failure_consumes_attempt (U:=bytes_only) (C:=plain_codec)
              scenario_A_down "2+2=?" (config_of 3)) as [Hbody Hrun].
  split.
  - exact (proj2 (Hbody initial_locals [] _ _ eq_refl)).
  - exact (proj2 (Hrun [] _ eq_refl eq_refl)).
Defined.

(** C6. The enhanced prompt is the fixed instructions followed by the
    question as it is, so the question occurs in it; both backends get the
    same prompt; and it is what each client sends: Backend A as the text of
    its generation call, Backend B as the content of its single user
    message. *)
Theorem prompt_keeps_question (question : string) :
  gemini_enhancedPrompt question = instruction_template ++ question /\
  groq_enhancedPrompt question = instruction_template ++ question /\
  is_substring question (gemini_enhancedPrompt question) /\
  is_substring question (groq_enhancedPrompt question) /\
  (forall (remote : Remote) (apiKey : string) (w : Trace),
     let w' := snd (getGeminiResponse remote question apiKey w) in
     w' = EvNewClient apiKey :: w \/
     w' = EvGenerateContent "gemini-pro" (instruction_template ++ question)
            :: EvNewClient apiKey :: w) /\
  groq_reqBody question =
  {| Model := "llama-3.3-70b-versatile";
     Messages := [ {| Role := "user";
                      MessageContent := instruction_template ++ question |} ] |}.
Proof.
  assert (EA : gemini_enhancedPrompt question = instruction_template ++ question)
    by reflexivity.
  assert (EB : groq_enhancedPrompt question = instruction_template ++ question)
    by reflexivity.
  assert (N : forall q : string, q = q ++ "").
  { induction q as [|c q IH]; cbn; [reflexivity | now rewrite <- IH]. }
  split; [exact EA|]. split; [exact EB|].
  split; [exists instruction_template, ""; rewrite EA; f_equal; apply N|].
  split; [exists instruction_template, ""; rewrite EB; f_equal; apply N|].
  split.
  - intros remote apiKey w. cbv zeta. rewrite <- EA.
    unfold getGeminiResponse, bind, NewClient, GenerateContent.
    destruct (genai_NewClient remote w apiKey); run_go; [now left | right].
    destruct (genai_GenerateContent remote _ _ _) as [resp|e]; run_go; [|reflexivity].
    split_first_text; reflexivity.
  - unfold groq_reqBody. now rewrite EB.
Qed.

(** C7.  The code does not do what the claim says: when the generation
    call succeeds with no candidates, with a candidate without content,
    with no parts, or with a part that is not text, [getGeminiResponse]
    panics instead of returning an error, where [getGroqResponse] returns
    an error for an empty list of choices. *)
Theorem gemini_client_panics_without_text :
  fst (getGeminiResponse scenario_no_candidates "2+2=?" "gk" []) =
    Panic "runtime error: index out of range [0] with length 0" /\
  fst (getGeminiResponse scenario_nil_content "2+2=?" "gk" []) =
    Panic "runtime error: invalid memory address or nil pointer dereference" /\
  fst (getGeminiResponse scenario_no_parts "2+2=?" "gk" []) =
    Panic "runtime error: index out of range [0] with length 0" /\
  fst (getGeminiResponse scenario_blob_part "2+2=?" "gk" []) =
    Panic "interface conversion: genai.Part is genai.Blob, not genai.Text" /\
  fst (getGroqResponse (C:=plain_codec) (scripted [] [http_reply ""]) "2+2=?" "qk" []) =
    Done (Err "no response choices returned").
Proof. repeat split. Qed.

(** C8.  The code does not do what the claim says, by the defect of C7: a
    generation call that succeeds without candidates makes
    [getGeminiResponse] panic inside [processQuestion], and the panic ends
    the process.  Nothing is logged, no retry is made, and the second
    question is never read. *)
Theorem session_dies_on_unreadable_answer :
  main (U:=bytes_only) (C:=plain_codec) scenario_no_candidates startup_ok two_questions [] =
  (Panic "runtime error: index out of range [0] with length 0",
   [ EvGenerateContent "gemini-pro" (gemini_enhancedPrompt "2+2=?");
     EvNewClient "gk";
     EvPrint (nl ++ "Enter your question:" ++ nl);
     EvPrint ("----------------------------------------" ++ nl);
     EvPrint ("Type your question and press Ctrl+D (Unix) or Ctrl+Z (Windows) on a new line to finish" ++ nl);
     EvPrint ("Enter your questions (type 'exit' to quit)" ++ nl);
     EvPrint ("Interactive AI Question Answering System" ++ nl) ]).
Proof. reflexivity. Qed.

(** C9. With a maximum retry count of zero or less, [processQuestion]
    makes no call at all (the trace is unchanged) and returns the
    [ExhaustedNoAnswers] error, whose message reports that count and a nil
    last error for each backend. *)
Theorem no_budget_no_calls {U : Unicode} {C : Codec}
    (remote : Remote) (question : string) (config : Config) (w0 : Trace) :
  MaxRetries config <= 0 ->
  processQuestion remote question config w0 =
  (Done (Err ("failed to get responses after " ++ fmt_d (MaxRetries config) ++
              " attempts. Gemini error: <nil>, Groq error: <nil>")), w0).
Proof.
  intros H. unfold processQuestion.
  rewrite retry_loop_exit; [reflexivity|].
  unfold remaining. cbn. lia.
Qed.

Lemma no_budget_no_calls_witness :
  processQuestion (U:=bytes_only) (C:=plain_codec) scenario_agree "2+2=?" (config_of (-2)) []
  = (Done (Err "failed to get responses after -2 attempts. Gemini error: <nil>, Groq error: <nil>"),
     []).
Proof.
  apply (no_budget_no_calls (U:=bytes_only) (C:=plain_codec)
           scenario_agree "2+2=?" (config_of (-2)) []).
  cbn. lia.
Defined.

(** C10. On success the result is Backend A's content as it came.  On
    exhaustion with an answer to show, the result is the side-by-side text
    in which each answer shown has a newline written before every
    occurrence of [Option] and two newlines before every occurrence of
    [Summary] (a missing answer is the placeholder). *)
Theorem formatting_only_when_exhausted {U : Unicode} {C : Codec}
    (remote : Remote) (question : string) (config : Config) (w0 : Trace) :
  (forall (k : nat) (a b : Response),
     nth_error (attempts remote question config w0) k = Some (Agree a b) ->
     fst (processQuestion remote question config w0) = Done (Val (Content a)))
  /\
  (never_agreed (attempts remote question config w0) = true ->
   last_answerA (attempts remote question config w0) <> None \/
   latest_answerB (attempts remote question config w0) <> None ->
   fst (processQuestion remote question config w0) =
   Done (Val ("Responses after " ++ fmt_d (MaxRetries config) ++ " attempts:" ++
              nl ++ nl ++ "Gemini Response:" ++ nl ++
              shown break_before_markers (last_answerA (attempts remote question config w0)) ++
              nl ++ nl ++ "Groq Response:" ++ nl ++
              shown break_before_markers
                (latest_answerB (attempts remote question config w0))))).
Proof.
  split.
  - intros k a b Hk.
    destruct (processQuestion_agree remote question config w0 k a b Hk)
      as [_ (stk & wk & w1 & w2 & w3 & _ & _ & _ & _ & _ & R)].
    now rewrite R.
  - intros Hna Hsome.
    destruct (processQuestion_exhausted remote question config w0 Hna) as [_ [wf R]].
    rewrite R. cbn [fst]. f_equal.
    unfold exhausted_output, ExhaustedWithAnswers.
    rewrite <- !shown_formatResponse.
    destruct (last_answerA (attempts remote question config w0)),
             (latest_answerB (attempts remote question config w0));
      try reflexivity.
    destruct Hsome as [H|H]; now elim H.
Qed.

Lemma formatting_only_when_exhausted_witness :
  fst (processQuestion (U:=bytes_only) (C:=plain_codec) scenario_third
         "2+2=? A) 3 B) 4" (config_of 5) []) = Done (Val "B is correct") /\
  fst (processQuestion (U:=bytes_only) (C:=plain_codec) scenario_differ
         "2+2=? A) 3 B) 4" (config_of 2) []) =
  Done (Val ("Responses after 2 attempts:" ++ nl ++ nl ++
             "Gemini Response:" ++ nl ++
             nl ++ "Option B. " ++ nl ++ nl ++ "Summary: B" ++
             nl ++ nl ++ "Groq Response:" ++ nl ++
             "It is " ++ nl ++ "Option B")).
Proof.
  destruct (formatting_only_when_exhausted (U:=bytes_only) (C:=plain_codec)
              scenario_third "2+2=? A) 3 B) 4" (config_of 5) []) as [Hok _].
  destruct (formatting_only_when_exhausted (U:=bytes_only) (C:=plain_codec)
              scenario_differ "2+2=? A) 3 B) 4" (config_of 2) []) as [_ Hex].
  split.
  - exact (Hok 2%nat (gemini_says "B is correct") (groq_says "B) 4 is correct") eq_refl).
  - refine (Hex eq_refl _). left. discriminate.
Defined.

(* ================================================================= *)
(** * Further properties *)

(* ================================================================= *)
(** ** The two clients *)

Lemma first_text_response_text (resp : GenerateContentResponse) (w : Trace) :
  match response_text resp with
  | Some t => first_text resp w = (Done t, w)
  | None => exists msg, first_text resp w = (Panic msg, w)
  end.
Proof.
  unfold response_text, first_text, bind, index0, deref, assert_Text, ret, panic.
  destruct resp as [cs]; destruct cs as [|[content] cs]; cbn; eauto.
  destruct content as [[ps]|]; cbn; eauto.
  destruct ps as [|[t|m d|f] ps]; cbn; eauto.
Qed.

(** X1. [getGroqResponse] returns a response exactly when the request body
    is marshalled, the request is created, the call is answered with
    status 200, the body decodes and holds a choice; the response is then
    the content of the first choice, with source [Groq]. *)
Theorem getGroqResponse_succeeds_iff {C : Codec} (remote : Remote)
    (question apiKey : string) (w : Trace) (r : Response) :
  fst (getGroqResponse remote question apiKey w) = Done (Val r) <->
  exists jsonData resp g c cs,
    json_Marshal (groq_reqBody question) = Val jsonData /\
    http_NewRequest_error "POST" groq_url = None /\
    http_Do remote w (groq_request apiKey jsonData) = Val resp /\
    StatusCode resp = 200 /\
    json_Decode (ResponseBody resp) = Val g /\
    Choices g = c :: cs /\
    r = {| Source := "Groq"; Content := ChoiceMessageContent c |}.
Proof.
  unfold getGroqResponse, bind, client_Do, ret, groq_request, groq_url, StatusOK.
  split.
  - destruct (json_Marshal (groq_reqBody question)) as [jsonData|e]; cbn [fst];
      [|discriminate].
    destruct (http_NewRequest_error _ _) as [e|]; cbn [fst]; [discriminate|].
    destruct (http_Do remote w _) as [resp|e] eqn:D; cbn [fst]; [|discriminate].
    destruct (Z.eqb_spec (StatusCode resp) 200) as [S|S]; cbn [negb fst];
      [|discriminate].
    destruct (json_Decode (ResponseBody resp)) as [g|e] eqn:J; cbn [fst];
      [|discriminate].
    destruct (Choices g) as [|c cs] eqn:Ch; cbn [fst]; [discriminate|].
    intros H. injection H as <-.
    exists jsonData, resp, g, c, cs. repeat split; auto.
  - intros (jsonData & resp & g & c & cs & -> & -> & -> & S & J & Ch & ->).
    rewrite S. cbn [Z.eqb negb]. rewrite Pos.eqb_refl. cbn [negb].
    rewrite J, Ch. reflexivity.
Qed.

Lemma getGroqResponse_succeeds_iff_witness :
  fst (getGroqResponse (C:=plain_codec) (scripted [] [http_reply "B) 4"]) "2+2=?" "qk" [])
  = Done (Val (groq_says "B) 4")).
Proof.
  apply (proj2 (getGroqResponse_succeeds_iff (C:=plain_codec)
                  (scripted [] [http_reply "B) 4"]) "2+2=?" "qk" [] (groq_says "B) 4"))).
  exists (groq_enhancedPrompt "2+2=?"),
         {| StatusCode := 200; ResponseBody := "B) 4" |},
         {| Choices := [ {| ChoiceMessageContent := "B) 4" |} ] |},
         {| ChoiceMessageContent := "B) 4" |}, [].
  repeat split.
Defined.

(** X2. [getGroqResponse] never panics, makes at most one HTTP call and no
    other call: the trace is left as it was when the body cannot be
    marshalled or the request cannot be created, and otherwise grows by the
    one [POST] to the fixed URL that carries the key as bearer token. *)
Theorem getGroqResponse_one_request {C : Codec} (remote : Remote)
    (question apiKey : string) (w : Trace) :
  exists r w',
    getGroqResponse remote question apiKey w = (Done r, w') /\
    match json_Marshal (groq_reqBody question), http_NewRequest_error "POST" groq_url with
    | Val jsonData, None => w' = EvHttpDo (groq_request apiKey jsonData) :: w
    | _, _ => w' = w /\ exists e, r = Err e
    end.
Proof.
  unfold getGroqResponse, bind, client_Do, ret, groq_request, groq_url.
  destruct (json_Marshal (groq_reqBody question)) as [jsonData|e]; [|eauto 6].
  destruct (http_NewRequest_error _ _) as [e|]; [eauto 6|].
  destruct (http_Do remote w _) as [resp|e]; [|eauto].
  destruct (negb _); [eauto|].
  destruct (json_Decode _) as [g|e]; [|eauto].
  destruct (Choices g); eauto.
Qed.

(** X3. [getGeminiResponse] has three outcomes.  It returns a response
    exactly when the client is created and the generation call returns a
    response with a first text part, whose text is the content.  It
    returns an error exactly when the client cannot be created or the
    generation call fails, and the error names the stage.  It panics
    exactly when the generation call succeeds with a response that has no
    first text part. *)
Theorem getGeminiResponse_outcomes (remote : Remote) (question apiKey : string)
    (w : Trace) :
  let created := genai_NewClient remote w apiKey in
  let generated :=
    genai_GenerateContent remote (EvNewClient apiKey :: w) "gemini-pro"
      (gemini_enhancedPrompt question) in
  let out := fst (getGeminiResponse remote question apiKey w) in
  (forall r, out = Done (Val r) <->
     exists resp t, created = None /\ generated = Val resp /\
                    response_text resp = Some t /\
                    r = {| Source := "Gemini"; Content := t |}) /\
  (forall e, out = Done (Err e) <->
     (exists e0, created = Some e0 /\ e = "failed to create Gemini client: " ++ e0) \/
     (exists e0, created = None /\ generated = Err e0 /\
                 e = "failed to generate Gemini response: " ++ e0)) /\
  ((exists msg, out = Panic msg) <->
     exists resp, created = None /\ generated = Val resp /\ response_text resp = None).
Proof.
  cbv zeta. unfold getGeminiResponse, bind, NewClient, GenerateContent.
  destruct (genai_NewClient remote w apiKey) as [e0|]; run_go.
  { repeat split.
    - discriminate.
    - intros (resp & t & H & _); discriminate.
    - intros H. injection H as <-. left. eauto.
    - intros [(e1 & H & ->)|(e1 & H & _)]; [now injection H as -> | discriminate].
    - intros [msg H]; discriminate.
    - intros (resp & H & _); discriminate. }
  destruct (genai_GenerateContent remote _ _ _) as [resp|e0]; run_go.
  2:{ repeat split.
    - discriminate.
    - intros (resp & t & _ & H & _); discriminate.
    - intros H. injection H as <-. right. eauto.
    - intros [(e1 & H & _)|(e1 & _ & H & ->)]; [discriminate | now injection H as ->].
    - intros [msg H]; discriminate.
    - intros (resp & _ & H & _); discriminate. }
  pose proof (first_text_response_text resp
                (EvGenerateContent "gemini-pro" (gemini_enhancedPrompt question)
                   :: EvNewClient apiKey :: w)) as T.
  destruct (response_text resp) as [t|] eqn:RT.
  - rewrite T. run_go. repeat split.
    + intros H. injection H as <-. exists resp, t. repeat split; auto.
    + intros (resp' & t' & _ & H & H' & ->). injection H as <-.
      rewrite RT in H'. now injection H' as ->.
    + discriminate.
    + intros [(e1 & H & _)|(e1 & _ & H & _)]; discriminate.
    + intros [msg H]; discriminate.
    + intros (resp' & _ & H & H'). injection H as <-. congruence.
  - destruct T as [msg T]. rewrite T. run_go. repeat split.
    + discriminate.
    + intros (resp' & t' & _ & H & H' & _). injection H as <-. congruence.
    + discriminate.
    + intros [(e1 & H & _)|(e1 & _ & H & _)]; discriminate.
    + intros _. eauto.
    + intros _. eauto.
Qed.

Lemma getGeminiResponse_outcomes_witness :
  fst (getGeminiResponse scenario_agree "2+2=?" "gk" []) = Done (Val (gemini_says "B is correct")) /\
  fst (getGeminiResponse scenario_A_down "2+2=?" "gk" []) =
    Done (Err "failed to generate Gemini response: timeout 1") /\
  exists msg, fst (getGeminiResponse scenario_no_parts "2+2=?" "gk" []) = Panic msg.
Proof.
  destruct (getGeminiResponse_outcomes scenario_agree "2+2=?" "gk" []) as (HV & _ & _).
  destruct (getGeminiResponse_outcomes scenario_A_down "2+2=?" "gk" []) as (_ & HE & _).
  destruct (getGeminiResponse_outcomes scenario_no_parts "2+2=?" "gk" []) as (_ & _ & HP).
  split; [|split].
  - apply (proj2 (HV _)). eexists _, "B is correct". repeat split.
  - apply (proj2 (HE _)). right. exists "timeout 1". repeat split.
  - apply (proj2 HP). eexists. repeat split.
Defined.

(* ================================================================= *)
(** ** What a run adds to the trace *)

Lemma http_calls_app (a b : Trace) : http_calls (a ++ b)%list = (http_calls a + http_calls b)%nat.
Proof. induction a as [|[] a IH]; cbn; auto. Qed.

Lemma generate_calls_app (a b : Trace) :
  generate_calls (a ++ b)%list = (generate_calls a + generate_calls b)%nat.
Proof. induction a as [|[] a IH]; cbn; auto. Qed.

Lemma client_calls_app (a b : Trace) :
  client_calls (a ++ b)%list = (client_calls a + client_calls b)%nat.
Proof. induction a as [|[] a IH]; cbn; auto. Qed.

Lemma log_lines_app (a b : Trace) :
  log_lines (a ++ b)%list = (log_lines a ++ log_lines b)%list.
Proof. induction a as [|[] a IH]; cbn; auto. now rewrite IH. Qed.

Lemma printed_app (a b : Trace) :
  printed (a ++ b)%list = (printed a ++ printed b)%list.
Proof. induction a as [|[] a IH]; cbn; auto. now rewrite IH. Qed.

Section TraceFacts.
Context {U : Unicode} {C : Codec}.
Variable remote : Remote.
Variable question : string.
Variable config : Config.

Lemma adds_app (h1 g1 h2 g2 : nat) (new1 new2 : Trace) :
  adds question config h1 g1 new1 -> adds question config h2 g2 new2 ->
  adds question config (h2 + h1) (g2 + g1) (new2 ++ new1)%list.
Proof.
  intros (F1 & H1 & G1 & C1) (F2 & H2 & G2 & C2). unfold adds.
  rewrite http_calls_app, generate_calls_app, client_calls_app.
  repeat split; [now apply Forall_app | lia | lia | lia].
Qed.

Lemma adds_weaken (h g h' g' : nat) (new : Trace) :
  (h <= h')%nat -> (g <= g')%nat ->
  adds question config h g new -> adds question config h' g' new.
Proof. intros Hh Hg (F & H & G & Cl). unfold adds. repeat split; auto; lia. Qed.

Lemma adds_log (msg : string) (h g : nat) (new : Trace) :
  adds question config h g new -> adds question config h g (EvLog msg :: new).
Proof.
  intros (F & H & G & Cl). unfold adds. cbn.
  repeat split; auto. constructor; [exact I | exact F].
Qed.

Lemma getGeminiResponse_adds (w : Trace) :
  exists new,
    snd (getGeminiResponse remote question (GeminiKey config) w) = (new ++ w)%list /\
    adds question config 0 1 new /\ log_lines new = [].
Proof.
  unfold getGeminiResponse, bind, NewClient, GenerateContent.
  destruct (genai_NewClient remote w (GeminiKey config)); run_go.
  - exists [EvNewClient (GeminiKey config)]. unfold adds. cbn.
    repeat split; auto. repeat constructor.
  - exists [EvGenerateContent "gemini-pro" (gemini_enhancedPrompt question);
            EvNewClient (GeminiKey config)].
    split; [|unfold adds; cbn; repeat split; auto; repeat constructor; cbn; auto].
    destruct (genai_GenerateContent remote _ _ _) as [resp|e]; run_go; [|reflexivity].
    split_first_text; reflexivity.
Qed.

Lemma getGroqResponse_adds (w : Trace) :
  exists new,
    snd (getGroqResponse remote question (GroqKey config) w) = (new ++ w)%list /\
    adds question config 1 0 new /\ log_lines new = [].
Proof.
  destruct (getGroqResponse_one_request remote question (GroqKey config) w)
    as (r & w' & E & H). rewrite E. cbn [snd].
  destruct (json_Marshal (groq_reqBody question)) as [jsonData|e] eqn:J.
  - destruct (http_NewRequest_error "POST" groq_url).
    + destruct H as [-> _]. exists []. unfold adds. cbn. repeat split; auto.
    + subst w'. exists [EvHttpDo (groq_request (GroqKey config) jsonData)].
      unfold adds. cbn. repeat split; auto. repeat constructor. cbn. eauto.
  - destruct H as [-> _]. exists []. unfold adds. cbn. repeat split; auto.
Qed.

Lemma compareResponses_adds (r1 r2 : string) (w : Trace) :
  exists new,
    snd (compareResponses remote r1 r2 (GeminiKey config) w) = (new ++ w)%list /\
    adds question config 0 1 new /\ log_lines new = [].
Proof.
  unfold compareResponses, bind, NewClient, GenerateContent.
  destruct (genai_NewClient remote w (GeminiKey config)); run_go.
  - exists [EvNewClient (GeminiKey config)]. unfold adds. cbn.
    repeat split; auto. repeat constructor.
  - exists [EvGenerateContent "gemini-pro" (comparisonPrompt r1 r2);
            EvNewClient (GeminiKey config)].
    split.
    + destruct (genai_GenerateContent remote _ _ _) as [resp|e]; run_go; [|reflexivity].
      split_first_text; reflexivity.
    + split; [|reflexivity]. unfold adds. split; [|cbn; repeat split; auto].
      apply Forall_cons; [split; [reflexivity | right; now exists r1, r2]|].
      apply Forall_cons; [reflexivity | apply Forall_nil].
Qed.

(** One pass adds at most one HTTP call and two generation calls, and the
    log line of the attempt it met. *)
Lemma loop_body_adds (st : Locals) (w : Trace) :
  exists new,
    snd (loop_body remote question config st w) = (new ++ w)%list /\
    adds question config 1 2 new /\
    log_lines new = attempt_log (attempt st) (attempt_outcome remote question config w).
Proof.
  unfold loop_body, attempt_outcome, bind, attempt_prefix.
  destruct (getGeminiResponse_adds w) as (n1 & E1 & A1 & L1).
  destruct (getGeminiResponse remote question (GeminiKey config) w) as [[[a|e]|m|] w1];
    cbn [snd] in E1; subst w1; run_go.
  2:{ eexists (EvLog _ :: n1). split; [reflexivity|]. split.
      - apply adds_log. eapply adds_weaken; [| |exact A1]; lia.
      - cbn. now rewrite L1. }
  2,3: exists n1; (split; [reflexivity|]); split;
       [eapply adds_weaken; [| |exact A1]; lia | exact L1].
  destruct (getGroqResponse_adds (n1 ++ w)%list) as (n2 & E2 & A2 & L2).
  destruct (getGroqResponse remote question (GroqKey config) (n1 ++ w)%list)
    as [[[b|e]|m|] w2]; cbn [snd] in E2; subst w2; run_go.
  2:{ eexists (EvLog _ :: n2 ++ n1)%list. split; [cbn; now rewrite <- app_assoc|]. split.
      - apply adds_log. eapply adds_weaken; [| |exact (adds_app _ _ _ _ _ _ A1 A2)]; lia.
      - cbn. now rewrite log_lines_app, L1, L2. }
  2,3: exists (n2 ++ n1)%list; (split; [now rewrite <- app_assoc|]); split;
       [eapply adds_weaken; [| |exact (adds_app _ _ _ _ _ _ A1 A2)]; lia
       | now rewrite log_lines_app, L1, L2].
  pose proof (adds_app _ _ _ _ _ _ A1 A2) as A12.
  destruct (compareResponses_adds (Content a) (Content b) (n2 ++ n1 ++ w)%list)
    as (n3 & E3 & A3 & L3).
  pose proof (adds_app _ _ _ _ _ _ A12 A3) as A123.
  assert (L123 : log_lines (n3 ++ n2 ++ n1)%list = []).
  { now rewrite !log_lines_app, L1, L2, L3. }
  destruct (compareResponses remote (Content a) (Content b) (GeminiKey config)
              (n2 ++ n1 ++ w)%list) as [[[[|]|e]|m|] w3]; cbn [snd] in E3; subst w3; run_go.
  1,4,5: exists (n3 ++ n2 ++ n1)%list; (split; [now rewrite <- !app_assoc|]); split;
         [eapply adds_weaken; [| |exact A123]; lia | exact L123].
  all: eexists (EvLog _ :: n3 ++ n2 ++ n1)%list;
       (split; [cbn; now rewrite <- !app_assoc|]); split;
       [apply adds_log; eapply adds_weaken; [| |exact A123]; lia
       | cbn; now rewrite L123].
Qed.

End TraceFacts.

Lemma rev_attempt_log (i : Z) (o : Attempt) : rev (attempt_log i o) = attempt_log i o.
Proof. now destruct o. Qed.

Lemma attempts_cases (h : list Attempt) :
  never_agreed h = true \/
  (exists k a b, nth_error h k = Some (Agree a b)) \/
  (exists msg, In (Crashed msg) h).
Proof.
  induction h as [|o h IH]; [now left|].
  destruct (goes_on o) eqn:G.
  - destruct IH as [IH|[(k & a & b & IH)|(msg & IH)]].
    + left. unfold never_agreed in *. cbn [forallb]. unfold goes_on in G.
      now rewrite G, IH.
    + right. left. now exists (S k), a, b.
    + right. right. exists msg. now right.
  - destruct o; try discriminate G.
    + right. left. now exists 0%nat, a, b.
    + right. right. exists msg. now left.
Qed.

Section RunTraceFacts.
Context {U : Unicode} {C : Codec}.
Variable remote : Remote.
Variable question : string.
Variable config : Config.

Lemma retry_loop_adds (n : nat) :
  forall (fuel : nat) (st : Locals) (w : Trace),
    remaining config st = n -> (n < fuel)%nat ->
    exists new,
      snd (retry_loop remote fuel question config st w) = (new ++ w)%list /\
      adds question config n (2 * n) new /\
      log_lines new =
      rev (run_log (attempt st) (outcomes remote question config n st w)).
Proof.
  induction n as [|n IH]; intros [|fuel] st w Hn Hf; try lia.
  - rewrite retry_loop_exit by assumption. exists []. unfold adds. cbn.
    repeat split; auto.
  - rewrite (retry_loop_enter _ _ _ _ _ _ n) by assumption. rewrite outcomes_S.
    destruct (loop_body_adds remote question config st w) as (n1 & E1 & A1 & L1).
    cbn [run_log]. rewrite rev_app_distr, rev_attempt_log, <- L1.
    destruct (goes_on (attempt_outcome remote question config w)) eqn:G.
    + destruct (loop_body_goes_on remote question config st w G) as [w' E].
      rewrite E in *. cbn [snd] in E1. subst w'.
      destruct (IH fuel _ (n1 ++ w)%list (remaining_next _ _ _ _ G Hn) ltac:(lia))
        as (new & E' & A' & L').
      exists (new ++ n1)%list. rewrite E', <- app_assoc. split; [reflexivity|]. split.
      * eapply adds_weaken; [| |exact (adds_app _ _ _ _ _ _ _ _ A1 A')]; lia.
      * rewrite log_lines_app, L', attempt_next by assumption. reflexivity.
    + assert (E : exists r, loop_body remote question config st w = (r, (n1 ++ w)%list) /\
                            match r with Done (Continue _) => False | _ => True end).
      { unfold goes_on in G.
        destruct (attempt_outcome remote question config w) eqn:O; try discriminate.
        - destruct (loop_body_agree remote question config st w a b O)
            as (w1 & w2 & w3 & _ & _ & _ & E). rewrite E in E1. cbn [snd] in E1.
          subst w3. eexists. split; [exact E | exact I].
        - pose proof (loop_body_crashed remote question config st w msg O) as P.
          destruct (loop_body remote question config st w) as [r w'].
          cbn in P, E1. subst. eexists. split; [reflexivity | exact I]. }
      destruct E as (r & -> & Hr).
      exists n1. split; [|split].
      * now destruct r as [[st'|r']|m|].
      * eapply adds_weaken; [| |exact A1]; lia.
      * destruct r as [[st'|r']|m|]; [easy| | |]; reflexivity.
Qed.

Lemma processQuestion_adds (w0 : Trace) :
  exists new,
    snd (processQuestion remote question config w0) = (new ++ w0)%list /\
    adds question config (Z.to_nat (MaxRetries config))
      (2 * Z.to_nat (MaxRetries config)) new /\
    log_lines new = rev (run_log 0 (attempts remote question config w0)).
Proof.
  unfold processQuestion, attempts.
  apply (retry_loop_adds (Z.to_nat (MaxRetries config))
           (S (Z.to_nat (MaxRetries config))) initial_locals w0);
    [apply remaining_initial | lia].
Qed.

Lemma retry_loop_panics (msg : string) (n : nat) :
  forall (fuel : nat) (st : Locals) (w : Trace),
    remaining config st = n -> (n < fuel)%nat ->
    (fst (retry_loop remote fuel question config st w) = Panic msg <->
     In (Crashed msg) (outcomes remote question config n st w)).
Proof.
  induction n as [|n IH]; intros [|fuel] st w Hn Hf; try lia.
  - rewrite retry_loop_exit by assumption. cbn. split; [discriminate | tauto].
  - rewrite (retry_loop_enter _ _ _ _ _ _ n) by assumption. rewrite outcomes_S.
    destruct (goes_on (attempt_outcome remote question config w)) eqn:G.
    + destruct (loop_body_goes_on remote question config st w G) as [w' ->].
      rewrite (IH fuel _ w' (remaining_next _ _ _ _ G Hn) ltac:(lia)).
      cbn [In]. split; [tauto|]. intros [H|H]; [|exact H].
      rewrite H in G. discriminate.
    + unfold goes_on in G.
      destruct (attempt_outcome remote question config w) eqn:O; try discriminate.
      * destruct (loop_body_agree remote question config st w a b O)
          as (w1 & w2 & w3 & _ & _ & _ & ->). cbn.
        split; [discriminate | intros [H|[]]; discriminate].
      * pose proof (loop_body_crashed remote question config st w msg0 O) as P.
        destruct (loop_body remote question config st w) as [[[st'|r]|m|] w'];
          cbn in P; try discriminate. injection P as ->. cbn.
        split; [intros H; injection H as ->; now left
               | intros [H|[]]; now injection H as ->].
Qed.

End RunTraceFacts.

(** X4. A run makes at most [MaxRetries] HTTP calls to Backend B, at most
    twice as many generation calls and creates at most twice as many
    clients (none of them when [MaxRetries] is negative). *)
Theorem processQuestion_call_bounds {U : Unicode} {C : Codec}
    (remote : Remote) (question : string) (config : Config) (w0 : Trace) :
  let w' := snd (processQuestion remote question config w0) in
  let n := Z.to_nat (MaxRetries config) in
  (http_calls w' <= http_calls w0 + n)%nat /\
  (generate_calls w' <= generate_calls w0 + 2 * n)%nat /\
  (client_calls w' <= client_calls w0 + 2 * n)%nat.
Proof.
  cbv zeta.
  destruct (processQuestion_adds remote question config w0)
    as (new & -> & (_ & H & G & K) & _).
  rewrite http_calls_app, generate_calls_app, client_calls_app. lia.
Qed.

(** X5. A run only adds to the trace, and what it adds are its own events:
    clients made with the Gemini key, generation calls to [gemini-pro] with
    the enhanced prompt of the question or a comparison prompt, the one
    request of [getGroqResponse] for the question (the same at every
    attempt) and log lines.  It prints nothing. *)
Theorem processQuestion_own_events {U : Unicode} {C : Codec}
    (remote : Remote) (question : string) (config : Config) (w0 : Trace) :
  exists new,
    snd (processQuestion remote question config w0) = (new ++ w0)%list /\
    Forall (own_event question config) new /\
    printed (snd (processQuestion remote question config w0)) = printed w0.
Proof.
  destruct (processQuestion_adds remote question config w0)
    as (new & E & (F & _) & _).
  exists new. rewrite E. repeat split; auto.
  rewrite printed_app. replace (printed new) with (@nil string); [reflexivity|].
  clear E. induction F as [|e new He F IH]; [reflexivity|].
  destruct e; cbn; auto. destruct He.
Qed.

(** X6. The lines a run logs are, in order, one line for each attempt that
    did not end the run, numbered from 1 and naming what the attempt met:
    a Gemini error, a Groq error, a comparison error, or answers that
    differ.  The attempt that agrees, or panics, logs nothing. *)
Theorem processQuestion_log {U : Unicode} {C : Codec}
    (remote : Remote) (question : string) (config : Config) (w0 : Trace) :
  log_lines (snd (processQuestion remote question config w0)) =
  (rev (run_log 0 (attempts remote question config w0)) ++ log_lines w0)%list.
Proof.
  destruct (processQuestion_adds remote question config w0) as (new & -> & _ & L).
  now rewrite log_lines_app, L.
Qed.


(* ================================================================= *)
(** ** When a run returns an error, and when both answers *)

(** Every attempt but the last one made went on. *)
Lemma outcomes_front_goes_on {U : Unicode} {C : Codec} (remote : Remote)
    (question : string) (config : Config) (n : nat) :
  forall st w, forallb goes_on (removelast (outcomes remote question config n st w)) = true.
Proof.
  induction n as [|n IH]; intros st w; [reflexivity|].
  rewrite outcomes_S.
  destruct (loop_body remote question config st w) as [[[st'|r]|m|] w'] eqn:E;
    try reflexivity.
  specialize (IH st' w').
  destruct (outcomes remote question config n st' w') as [|o' h'] eqn:O; [reflexivity|].
  cbn [removelast forallb] in *. rewrite IH, andb_true_r.
  destruct (goes_on (attempt_outcome remote question config w)) eqn:G; [reflexivity|].
  exfalso. unfold goes_on in G.
  destruct (attempt_outcome remote question config w) eqn:Oc; try discriminate.
  - destruct (loop_body_agree remote question config st w a b Oc)
      as (w1 & w2 & w3 & _ & _ & _ & E'). congruence.
  - pose proof (loop_body_crashed remote question config st w msg Oc) as P.
    rewrite E in P. discriminate.
Qed.

Lemma never_agreed_last (h : list Attempt) (o : Attempt) :
  forallb goes_on (removelast h) = true ->
  nth_error h (Nat.pred (List.length h)) = Some o ->
  goes_on o = true -> never_agreed h = true.
Proof.
  intros Hfront Hlast Ho.
  destruct h as [|x h'] using rev_ind; [discriminate|].
  rewrite removelast_last in Hfront.
  rewrite length_app, Nat.add_1_r, Nat.pred_succ in Hlast.
  rewrite nth_error_app2, Nat.sub_diag in Hlast by lia. cbn in Hlast.
  injection Hlast as ->.
  rewrite never_agreed_app. unfold never_agreed at 1. fold goes_on.
  cbn. unfold goes_on in *. now rewrite Hfront, Ho.
Qed.

(** X8. [processQuestion] returns an error exactly when no attempt agreed
    or panicked, Backend A gave no answer in the last attempt and Backend B
    gave none in the latest attempt that called it; the message then
    reports [MaxRetries] and the latest error of each backend. *)
Theorem processQuestion_error_iff {U : Unicode} {C : Codec}
    (remote : Remote) (question : string) (config : Config) (w0 : Trace) (m : error) :
  fst (processQuestion remote question config w0) = Done (Err m) <->
  never_agreed (attempts remote question config w0) = true /\
  last_answerA (attempts remote question config w0) = None /\
  latest_answerB (attempts remote question config w0) = None /\
  m = "failed to get responses after " ++ fmt_d (MaxRetries config) ++
      " attempts. Gemini error: " ++
      fmt_v (latest_errorA (attempts remote question config w0)) ++
      ", Groq error: " ++ fmt_v (latest_errorB (attempts remote question config w0)).
Proof.
  split.
  - intros H.
    destruct (attempts_cases (attempts remote question config w0))
      as [Hna|[(k & a & b & Hk)|(msg & Hin)]].
    + destruct (processQuestion_exhausted remote question config w0 Hna) as [_ [wf R]].
      rewrite R in H. cbn [fst] in H. unfold exhausted_output in H.
      destruct (last_answerA (attempts remote question config w0)),
               (latest_answerB (attempts remote question config w0));
        try discriminate H.
      injection H as <-. repeat split; auto.
    + destruct (processQuestion_agree remote question config w0 k a b Hk)
        as [_ (stk & wk & w1 & w2 & w3 & _ & _ & _ & _ & _ & R)].
      rewrite R in H. discriminate.
    + unfold processQuestion, attempts in *.
      apply (retry_loop_panics remote question config msg (Z.to_nat (MaxRetries config))
               (S (Z.to_nat (MaxRetries config))) initial_locals w0
               (remaining_initial config) ltac:(lia)) in Hin.
      congruence.
  - intros (Hna & HA & HB & ->).
    destruct (processQuestion_exhausted remote question config w0 Hna) as [_ [wf R]].
    rewrite R. cbn [fst]. unfold exhausted_output. now rewrite HA, HB.
Qed.

Lemma processQuestion_error_iff_witness :
  fst (processQuestion (U:=bytes_only) (C:=plain_codec) scenario_A_down "2+2=?"
         (config_of 2) []) =
  Done (Err "failed to get responses after 2 attempts. Gemini error: failed to generate Gemini response: timeout 2, Groq error: <nil>").
Proof.
  apply (proj2 (processQuestion_error_iff (U:=bytes_only) (C:=plain_codec)
                  scenario_A_down "2+2=?" (config_of 2) [] _)).
  repeat split.
Defined.

(** X9. If the last of the [MaxRetries] attempts gets an answer from both
    backends and the judge says false or fails, the result is the
    side-by-side text of the two answers of that attempt, each passed
    through [formatResponse]; the judge's error is not part of it. *)
Theorem last_attempt_answers_shown {U : Unicode} {C : Codec}
    (remote : Remote) (question : string) (config : Config) (w0 : Trace)
    (o : Attempt) (a b : Response) :
  nth_error (attempts remote question config w0)
            (Nat.pred (Z.to_nat (MaxRetries config))) = Some o ->
  o = Differ a b \/ (exists e, o = JudgeFailed a b e) ->
  fst (processQuestion remote question config w0) =
  Done (Val ("Responses after " ++ fmt_d (MaxRetries config) ++ " attempts:" ++
             nl ++ nl ++ "Gemini Response:" ++ nl ++ formatResponse (Content a) ++
             nl ++ nl ++ "Groq Response:" ++ nl ++ formatResponse (Content b))).
Proof.
  intros Hlast Ho.
  pose proof (attempts_length remote question config w0) as Hlen.
  assert (Hfull : List.length (attempts remote question config w0)
                  = Z.to_nat (MaxRetries config)).
  { assert (Nat.pred (Z.to_nat (MaxRetries config))
            < List.length (attempts remote question config w0))%nat
      by (apply nth_error_Some; congruence).
    lia. }
  assert (Hgo : goes_on o = true) by (destruct Ho as [->|[e ->]]; reflexivity).
  assert (Hna : never_agreed (attempts remote question config w0) = true).
  { apply (never_agreed_last _ o); auto.
    - apply outcomes_front_goes_on.
    - now rewrite Hfull. }
  destruct (processQuestion_exhausted remote question config w0 Hna) as [_ [wf R]].
  rewrite R. cbn [fst]. f_equal.
  rewrite <- Hfull in Hlast. destruct (last_attempt_rev _ _ Hlast) as [r Hr].
  unfold exhausted_output, last_answerA, latest_answerB. rewrite Hr.
  destruct Ho as [->|[e ->]]; reflexivity.
Qed.

Lemma last_attempt_answers_shown_witness :
  fst (processQuestion (U:=bytes_only) (C:=plain_codec) scenario_differ
         "2+2=? A) 3 B) 4" (config_of 2) []) =
  Done (Val ("Responses after 2 attempts:" ++ nl ++ nl ++
             "Gemini Response:" ++ nl ++ formatResponse "Option B. Summary: B" ++
             nl ++ nl ++ "Groq Response:" ++ nl ++ formatResponse "It is Option B")).
Proof.
  apply (last_attempt_answers_shown (U:=bytes_only) (C:=plain_codec) scenario_differ
           "2+2=? A) 3 B) 4" (config_of 2) []
           (Differ (gemini_says "Option B. Summary: B") (groq_says "It is Option B"))
           (gemini_says "Option B. Summary: B") (groq_says "It is Option B")).
  - reflexivity.
  - left. reflexivity.
Defined.

(* ================================================================= *)
(** ** What [formatResponse] does to a text *)

Lemma strip_newlines_app (s t : string) :
  strip_newlines (s ++ t) = strip_newlines s ++ strip_newlines t.
Proof.
  induction s as [|c s IH]; [reflexivity|].
  cbn. destruct (Ascii.eqb c "010"); cbn; now rewrite IH.
Qed.

Lemma Option_excludes_Summary (s : string) :
  prefix "Option" s = true -> prefix "Summary" s = false.
Proof. intros H. destruct (prefix_split _ _ H) as [rest ->]. reflexivity. Qed.

(** X10. [formatResponse] changes nothing but newlines: with the newlines
    taken out, the formatted text is the text it was given. *)
Theorem formatResponse_keeps_text (response : string) :
  strip_newlines (formatResponse response) = strip_newlines response.
Proof.
  rewrite formatResponse_breaks.
  induction response as [|c s IH]; [reflexivity|].
  cbn [break_before_markers]. rewrite strip_newlines_app.
  replace (strip_newlines (if prefix "Option" (String c s) then nl
                           else if prefix "Summary" (String c s) then nl ++ nl else ""))
    with "".
  - cbn [append strip_newlines]. now rewrite IH.
  - destruct (prefix "Option" (String c s)); [reflexivity|].
    destruct (prefix "Summary" (String c s)); reflexivity.
Qed.

(** X11. [formatResponse] makes the text longer by one byte for every
    occurrence of [Option] and by two for every occurrence of [Summary]. *)
Theorem formatResponse_length (response : string) :
  String.length (formatResponse response) =
  (String.length response + occurrences "Option" response
   + 2 * occurrences "Summary" response)%nat.
Proof.
  rewrite formatResponse_breaks.
  induction response as [|c s IH]; [reflexivity|].
  cbn [break_before_markers occurrences]. rewrite string_length_app.
  cbn [String.length]. rewrite IH.
  destruct (prefix "Option" (String c s)) eqn:PO.
  - rewrite (Option_excludes_Summary _ PO). cbn. lia.
  - destruct (prefix "Summary" (String c s)); cbn; lia.
Qed.

(** X12. [formatResponse] returns a text as it is exactly when neither
    [Option] nor [Summary] occurs in it. *)
Theorem formatResponse_fixes_iff (response : string) :
  formatResponse response = response <->
  occurrences "Option" response = O /\ occurrences "Summary" response = O.
Proof.
  split.
  - intros H. pose proof (formatResponse_length response) as L.
    rewrite H in L. lia.
  - rewrite formatResponse_breaks.
    induction response as [|c s IH]; [reflexivity|].
    cbn [break_before_markers occurrences]. intros [HO HS].
    destruct (prefix "Option" (String c s)); [discriminate|].
    destruct (prefix "Summary" (String c s)); [discriminate|].
    cbn. f_equal. apply IH. split; assumption.
Qed.

Lemma formatResponse_fixes_iff_witness :
  formatResponse "B is correct" = "B is correct" /\
  formatResponse "Option B" <> "Option B".
Proof.
  split.
  - apply (proj2 (formatResponse_fixes_iff "B is correct")). split; reflexivity.
  - intros H. apply (proj1 (formatResponse_fixes_iff "Option B")) in H.
    destruct H as [H _]. discriminate H.
Defined.

(** The line breaks written before the markers neither make nor break an
    occurrence of a pattern that holds no [O], no [S] and no newline. *)
Lemma prefix_after_breaks (p : string) :
  occurs_in "O" p = false -> occurs_in "S" p = false -> occurs_in "010" p = false ->
  forall s, prefix p (break_before_markers s) = prefix p s.
Proof.
  induction p as [|a p IH]; intros HO HS Hnl s.
  - now destruct (break_before_markers s), s.
  - cbn [occurs_in] in HO, HS, Hnl.
    apply orb_false_iff in HO as [HO HO'].
    apply orb_false_iff in HS as [HS HS'].
    apply orb_false_iff in Hnl as [Hnl Hnl'].
    apply Ascii.eqb_neq in HO, HS, Hnl.
    destruct s as [|c s']; [reflexivity|].
    cbn [break_before_markers].
    destruct (prefix "Option" (String c s')) eqn:PO.
    + destruct (prefix_split _ _ PO) as [rest E]. injection E as -> _.
      cbn. destruct (ascii_dec a "010"); [congruence|].
      destruct (ascii_dec a "O"); [congruence | reflexivity].
    + destruct (prefix "Summary" (String c s')) eqn:PS.
      * destruct (prefix_split _ _ PS) as [rest E]. injection E as -> _.
        cbn. destruct (ascii_dec a "010"); [congruence|].
        destruct (ascii_dec a "S"); [congruence | reflexivity].
      * cbn. destruct (ascii_dec a c); [now apply IH | reflexivity].
Qed.

Lemma occurrences_after_breaks (c0 : ascii) (p : string) :
  c0 <> "010"%char ->
  occurs_in "O" p = false -> occurs_in "S" p = false -> occurs_in "010" p = false ->
  forall s, occurrences (String c0 p) (break_before_markers s) = occurrences (String c0 p) s.
Proof.
  intros Hc HO HS Hnl. induction s as [|c s IH]; [reflexivity|].
  cbn [break_before_markers].
  assert (E : forall X Y, (X = "" \/ X = nl \/ X = nl ++ nl) ->
                          occurrences (String c0 p) (X ++ Y) = occurrences (String c0 p) Y).
  { intros X Y [-> | [-> | ->]]; unfold nl; cbn [append occurrences prefix];
      [reflexivity| |]; destruct (ascii_dec c0 "010"); try congruence; reflexivity. }
  rewrite E.
  - cbn [occurrences]. rewrite IH. f_equal. cbn [prefix].
    destruct (ascii_dec c0 c); [|reflexivity].
    now rewrite (prefix_after_breaks p HO HS Hnl s).
  - destruct (prefix "Option" (String c s)); [now right; left|].
    destruct (prefix "Summary" (String c s)); [now right; right | now left].
Qed.

(** X13. [formatResponse] keeps every occurrence of [Option] and of
    [Summary] and makes no new one, so a second pass writes the line
    breaks again: formatting twice is formatting once only for a text
    without markers. *)
Theorem formatResponse_again (response : string) :
  occurrences "Option" (formatResponse response) = occurrences "Option" response /\
  occurrences "Summary" (formatResponse response) = occurrences "Summary" response /\
  (formatResponse (formatResponse response) = formatResponse response <->
   formatResponse response = response).
Proof.
  assert (EO : occurrences "Option" (formatResponse response)
               = occurrences "Option" response).
  { rewrite formatResponse_breaks.
    apply occurrences_after_breaks; [discriminate | reflexivity..]. }
  assert (ES : occurrences "Summary" (formatResponse response)
               = occurrences "Summary" response).
  { rewrite formatResponse_breaks.
    apply occurrences_after_breaks; [discriminate | reflexivity..]. }
  split; [exact EO|]. split; [exact ES|].
  rewrite !formatResponse_fixes_iff, EO, ES. tauto.
Qed.

(* ================================================================= *)
(** ** The interactive loop *)

Lemma remote_calls_log (msg : string) (w : Trace) :
  remote_calls (EvLog msg :: w) = remote_calls w.
Proof. reflexivity. Qed.

Lemma remote_calls_print (text : string) (w : Trace) :
  remote_calls (EvPrint text :: w) = remote_calls w.
Proof. reflexivity. Qed.

Lemma lowerASCII_plain (c : ascii) :
  byte_lt (lowerASCII c) RuneSelf = true -> asciiSpace (lowerASCII c) = false ->
  asciiSpace c = false /\ byte_lt c RuneSelf = true.
Proof.
  destruct c as [[] [] [] [] [] [] [] []]; cbn; intros H1 H2;
    try discriminate H1; try discriminate H2; split; reflexivity.
Qed.

Lemma lowerASCII_space (c : ascii) : asciiSpace c = true -> lowerASCII c = c.
Proof.
  destruct c as [[] [] [] [] [] [] [] []]; cbn; intros H; try discriminate H; reflexivity.
Qed.

Lemma map_lower_spaces (s : string) : all_space s = true -> map_bytes lowerASCII s = s.
Proof.
  induction s as [|c s IH]; [reflexivity|]. cbn. intros H.
  apply andb_true_iff in H as [Hc H]. now rewrite (lowerASCII_space _ Hc), IH.
Qed.

Lemma all_space_isASCII (s : string) : all_space s = true -> isASCII s = true.
Proof.
  induction s as [|c s IH]; [reflexivity|]. cbn. intros H.
  apply andb_true_iff in H as [Hc H]. now rewrite (asciiSpace_is_ascii _ Hc), IH.
Qed.

Lemma map_bytes_app (f : ascii -> ascii) (s t : string) :
  map_bytes f (s ++ t) = map_bytes f s ++ map_bytes f t.
Proof. induction s as [|c s IH]; cbn; [reflexivity | now rewrite IH]. Qed.

Lemma all_space_written (lines : list string) :
  forallb all_space lines = true -> all_space (written lines) = true.
Proof.
  induction lines as [|l ls IH]; [reflexivity|]. cbn [forallb]. intros H.
  apply andb_true_iff in H as [Hl H].
  change (written (l :: ls)) with (l ++ written ls).
  now rewrite all_space_app, Hl, IH.
Qed.

Section LineFacts.
Context {U : Unicode}.

Lemma TrimSpace_all_space (s : string) : all_space s = true -> TrimSpace s = "".
Proof.
  intros H. rewrite <- (string_app_nil s). now rewrite TrimSpace_spaces.
Qed.

Lemma blank_line_is_not_exit (line : string) :
  all_space line = true -> says_exit line = false.
Proof.
  intros H. unfold says_exit, ToLower.
  rewrite (all_space_isASCII _ H), (map_lower_spaces _ H), (TrimSpace_all_space _ H).
  reflexivity.
Qed.

(** [exit] in any letter case, with ASCII white space around it, says
    exit. *)
Lemma padded_exit_says_exit (l m r : string) :
  all_space l = true -> all_space r = true -> map_bytes lowerASCII m = "exit" ->
  says_exit (l ++ m ++ r) = true.
Proof.
  intros Hl Hr Hm. unfold says_exit, ToLower.
  destruct m as [|c1 [|c2 [|c3 [|c4 [|c5 m]]]]]; try discriminate Hm.
  cbn in Hm. injection Hm as H1 H2 H3 H4.
  assert (A : forall c d, lowerASCII c = d -> byte_lt d RuneSelf = true ->
                          asciiSpace d = false -> byte_lt c RuneSelf = true).
  { intros c d <- Hb Hs. now destruct (lowerASCII_plain c Hb Hs). }
  rewrite !isASCII_app, (all_space_isASCII _ Hl), (all_space_isASCII _ Hr).
  cbn [isASCII andb].
  rewrite (A c1 _ H1 eq_refl eq_refl), (A c2 _ H2 eq_refl eq_refl),
          (A c3 _ H3 eq_refl eq_refl), (A c4 _ H4 eq_refl eq_refl).
  cbn [andb]. rewrite !map_bytes_app, (map_lower_spaces _ Hl), (map_lower_spaces _ Hr).
  cbn [map_bytes]. rewrite H1, H2, H3, H4.
  rewrite (TrimSpace_spaces l _ Hl).
  change (String "e" (String "x" (String "i" (String "t" ""))) ++ r)
    with (String "e" ("xit" ++ r)).
  cbn [TrimSpace]. change (negb (byte_lt "e" RuneSelf)) with false.
  change (asciiSpace "e") with false. cbv iota.
  change (String "e" ("xit" ++ r)) with ("exit" ++ r).
  rewrite rev_string_app, trim_right_rev_spaces by now rewrite all_space_rev.
  reflexivity.
Qed.

End LineFacts.

(** Run the printing and logging of the loop, leaving the rest alone. *)
Ltac run_io :=
  unfold bind, ret, ask, fmt_Println, fmt_Print, log_Printf, emit; cbv beta iota.

Section LoopInput.
Context {U : Unicode} {C : Codec}.
Variable remote : Remote.
Variable config : Config.

(** X14. As long as no read ends with [EOF], nothing is sent: whatever is
    typed, and whatever other read errors occur, the loop makes no call to
    a backend. *)
Theorem nothing_sent_before_end_of_input (stdin : list ReadResult) :
  forallb (fun x => negb (is_end_of_input x)) stdin = true ->
  forall (questionBuilder : string) (w : Trace),
    remote_calls (snd (read_loop remote config stdin questionBuilder w)) = remote_calls w.
Proof.
  induction stdin as [|[line [err|]] stdin IH]; intros H qb w; cbn [read_loop].
  - reflexivity.
  - cbn [forallb] in H. apply andb_true_iff in H as [Hx H].
    unfold is_end_of_input in Hx. cbn [snd] in Hx.
    destruct (err =? "EOF")%string; [discriminate|].
    run_io. now rewrite (IH H).
  - cbn [forallb] in H. apply andb_true_iff in H as [_ H].
    destruct (TrimSpace (ToLower line) =? "exit")%string.
    + run_io. reflexivity.
    + apply (IH H).
Qed.

(** Lines that do not say exit are written to the builder, in order. *)
Lemma read_loop_typed (lines : list string) (rest : list ReadResult) :
  forallb (fun line => negb (says_exit line)) lines = true ->
  forall (questionBuilder : string) (w : Trace),
    read_loop remote config (typed lines ++ rest)%list questionBuilder w =
    read_loop remote config rest (questionBuilder ++ written lines) w.
Proof.
  induction lines as [|l ls IH]; intros H qb w.
  - cbn. now rewrite string_app_nil.
  - cbn [forallb] in H. apply andb_true_iff in H as [Hl H].
    cbn [typed map app read_loop]. unfold says_exit in Hl.
    destruct (TrimSpace (ToLower l) =? "exit")%string; [discriminate|].
    fold (typed ls). rewrite (IH H). cbn [written fold_right].
    now rewrite string_app_assoc.
Qed.

(** X15. A question is the text of the lines typed up to the end of input,
    joined in order and trimmed.  When it is not empty it goes to
    [processQuestion]; the response is printed, or the error logged, the
    prompt is printed again and the loop goes on with an empty builder. *)
Theorem question_is_the_lines_typed (lines : list string) (x : string)
    (rest : list ReadResult) (w w' : Trace) (r : result string) :
  forallb (fun line => negb (says_exit line)) lines = true ->
  TrimSpace (written lines) <> "" ->
  processQuestion remote (TrimSpace (written lines)) config w = (Done r, w') ->
  read_loop remote config (typed lines ++ (x, Some "EOF") :: rest)%list "" w =
  read_loop remote config rest "" (EvPrint ask_text :: report r :: w').
Proof.
  intros Hlines Hq Hrun. rewrite (read_loop_typed lines _ Hlines). cbn [append read_loop].
  change ("EOF" =? "EOF")%string with true. cbv iota.
  destruct (String.eqb_spec (TrimSpace (written lines)) ""); [contradiction|].
  unfold bind at 1. rewrite Hrun. destruct r; unfold ask; run_go; reflexivity.
Qed.

(** X16. Input that is empty or ASCII white space only is not a question:
    at the end of input the prompt is printed again and nothing else
    happens. *)
Theorem blank_input_is_skipped (lines : list string) (x : string)
    (rest : list ReadResult) (w : Trace) :
  forallb all_space lines = true ->
  read_loop remote config (typed lines ++ (x, Some "EOF") :: rest)%list "" w =
  read_loop remote config rest "" (EvPrint ask_text :: w).
Proof.
  intros Hlines.
  rewrite (read_loop_typed lines).
  - cbn [append read_loop]. change ("EOF" =? "EOF")%string with true. cbv iota.
    rewrite (TrimSpace_all_space _ (all_space_written _ Hlines)).
    change ("" =? "")%string with true. cbv iota. unfold ask. run_go. reflexivity.
  - rewrite forallb_forall in *. intros l Hl.
    now rewrite (blank_line_is_not_exit _ (Hlines l Hl)).
Qed.

(** X17. A line that reads [exit], in any letter case and with ASCII white
    space around it, ends the session with status 0: what was typed
    before is dropped without any call, and what follows is not read. *)
Theorem exit_ends_the_session (l m r : string) (rest : list ReadResult)
    (questionBuilder : string) (w : Trace) :
  all_space l = true -> all_space r = true -> map_bytes lowerASCII m = "exit" ->
  read_loop remote config ((l ++ m ++ r, None) :: rest) questionBuilder w =
  (Done (Exited 0), EvPrint ("Goodbye!" ++ nl) :: w).
Proof.
  intros Hl Hr Hm. cbn [read_loop].
  pose proof (padded_exit_says_exit l m r Hl Hr Hm) as E. unfold says_exit in E.
  rewrite E. unfold fmt_Println. run_go. reflexivity.
Qed.

(** X18. With a maximum retry count of zero or less the session never
    calls a backend, whatever is typed. *)
Theorem no_budget_session_is_silent (stdin : list ReadResult) :
  MaxRetries config <= 0 ->
  forall (questionBuilder : string) (w : Trace),
    remote_calls (snd (read_loop remote config stdin questionBuilder w)) = remote_calls w.
Proof.
  intros Hmax.
  assert (P : forall q w, exists e,
             processQuestion remote q config w = (Done (Err e), w)).
  { intros q w. unfold processQuestion. rewrite retry_loop_exit.
    - unfold after_loop. cbn. eauto.
    - unfold remaining. cbn. lia. }
  induction stdin as [|[line [err|]] stdin IH]; intros qb w; cbn [read_loop].
  - reflexivity.
  - destruct (err =? "EOF")%string.
    + destruct (TrimSpace qb =? "")%string.
      * run_io. now rewrite IH.
      * unfold bind at 1. destruct (P (TrimSpace qb) w) as [e ->].
        run_io. now rewrite IH.
    + run_io. now rewrite IH.
  - destruct (TrimSpace (ToLower line) =? "exit")%string.
    + run_io. reflexivity.
    + apply IH.
Qed.


End LoopInput.

Lemma nothing_sent_before_end_of_input_witness :
  remote_calls
    (snd (read_loop (U:=bytes_only) (C:=plain_codec) scenario_agree (config_of 3)
            typing_without_end "" [])) = O.
Proof.
  exact (nothing_sent_before_end_of_input (U:=bytes_only) (C:=plain_codec)
           scenario_agree (config_of 3) typing_without_end eq_refl "" []).
Defined.

Lemma question_is_the_lines_typed_witness :
  read_loop (U:=bytes_only) (C:=plain_codec) scenario_agree (config_of 1)
    (typed two_lines ++ [("", Some "EOF")])%list "" [] =
  read_loop (U:=bytes_only) (C:=plain_codec) scenario_agree (config_of 1) [] ""
    (EvPrint ask_text :: report (Val "B is correct")
       :: snd (processQuestion (U:=bytes_only) (C:=plain_codec) scenario_agree
                 ("2+2=?" ++ nl ++ "A) 3 B) 4") (config_of 1) [])).
Proof.
  apply (question_is_the_lines_typed (U:=bytes_only) (C:=plain_codec) scenario_agree
           (config_of 1) two_lines "" [] []).
  - reflexivity.
  - discriminate.
  - reflexivity.
Defined.

Lemma blank_input_is_skipped_witness :
  read_loop (U:=bytes_only) (C:=plain_codec) scenario_agree (config_of 1)
    (typed blank_lines ++ [("", Some "EOF")])%list "" [] =
  (Done AwaitingInput, [EvPrint ask_text]).
Proof.
  exact (blank_input_is_skipped (U:=bytes_only) (C:=plain_codec) scenario_agree
           (config_of 1) blank_lines "" [] [] eq_refl).
Defined.

Lemma exit_ends_the_session_witness :
  read_loop (U:=bytes_only) (C:=plain_codec) scenario_agree (config_of 1)
    typing_then_exit "2+2" [] =
  (Done (Exited 0), [EvPrint ("Goodbye!" ++ nl)]).
Proof.
  exact (exit_ends_the_session (U:=bytes_only) (C:=plain_codec) scenario_agree
           (config_of 1) "  " "Exit" nl (tl typing_then_exit) "2+2" []
           eq_refl eq_refl eq_refl).
Defined.

Lemma no_budget_session_is_silent_witness :
  remote_calls
    (snd (read_loop (U:=bytes_only) (C:=plain_codec) scenario_agree (config_of 0)
            two_questions "" [])) = O.
Proof.
  apply (no_budget_session_is_silent (U:=bytes_only) (C:=plain_codec) scenario_agree
           (config_of 0) two_questions).
  cbn. lia.
Defined.

(* ================================================================= *)
(** ** Start-up and the end of the process *)





(* ================================================================= *)
(** ** The judge's prompt and verdict *)

(** X21. [comparisonPrompt] writes the two responses as they are, after a
    fixed header each.  So it does not tell where the first response ends:
    a first response that holds the second header gives the prompt of
    another pair, and the judge, which sees only the prompt, does the same
    for both pairs. *)
Theorem comparisonPrompt_not_delimited {U : Unicode} (remote : Remote)
    (a b c geminiKey : string) (w : Trace) :
  comparisonPrompt a b = response_1_header ++ a ++ response_2_header ++ b /\
  comparisonPrompt (a ++ response_2_header ++ b) c =
  comparisonPrompt a (b ++ response_2_header ++ c) /\
  compareResponses remote (a ++ response_2_header ++ b) c geminiKey w =
  compareResponses remote a (b ++ response_2_header ++ c) geminiKey w.
Proof.
  assert (E : forall x y,
             comparisonPrompt x y = response_1_header ++ x ++ response_2_header ++ y)
    by reflexivity.
  assert (P : comparisonPrompt (a ++ response_2_header ++ b) c =
              comparisonPrompt a (b ++ response_2_header ++ c)).
  { rewrite !E, !string_app_assoc. reflexivity. }
  split; [apply E|]. split; [exact P|].
  unfold compareResponses. now rewrite P.
Qed.

(** X22. When the judge's generation call returns ASCII text [t],
    [compareResponses] returns true exactly when [t] is the word [true],
    in any letter case, with nothing but ASCII white space around it. *)
Theorem judge_accepts_only_the_word_true {U : Unicode} (remote : Remote)
    (resp1 resp2 geminiKey : string) (w : Trace)
    (resp : GenerateContentResponse) (t : string) :
  genai_NewClient remote w geminiKey = None ->
  genai_GenerateContent remote (EvNewClient geminiKey :: w) "gemini-pro"
    (comparisonPrompt resp1 resp2) = Val resp ->
  response_text resp = Some t ->
  isASCII t = true ->
  (fst (compareResponses remote resp1 resp2 geminiKey w) = Done (Val true) <->
   exists l m r, t = l ++ m ++ r /\ all_space l = true /\ all_space r = true /\
                 map_bytes lowerASCII m = "true").
Proof.
  intros HC HG HT HA.
  assert (E : fst (compareResponses remote resp1 resp2 geminiKey w) =
              Done (Val (ToLower (TrimSpace t) =? "true")%string)).
  { unfold compareResponses, bind, NewClient, GenerateContent. rewrite HC. run_go.
    rewrite HG. run_go.
    pose proof (first_text_response_text resp
                  (EvGenerateContent "gemini-pro" (comparisonPrompt resp1 resp2)
                     :: EvNewClient geminiKey :: w)) as T.
    rewrite HT in T. rewrite T. reflexivity. }
  rewrite E, <- (judge_true_on_ascii t HA), <- String.eqb_eq.
  split; [intros H; now injection H | intros ->; reflexivity].
Qed.

Lemma judge_accepts_only_the_word_true_witness :
  fst (compareResponses (U:=bytes_only) (scripted [text_reply (" True" ++ nl)] [])
         "B is correct" "B) 4 is correct" "gk" []) = Done (Val true).
Proof.
  apply (proj2 (judge_accepts_only_the_word_true (U:=bytes_only)
                  (scripted [text_reply (" True" ++ nl)] [])
                  "B is correct" "B) 4 is correct" "gk" [] _ (" True" ++ nl)
                  eq_refl eq_refl eq_refl eq_refl)).
  exists " ", "True", nl. repeat split.
Defined.

(* ================================================================= *)
(** ** Exact counts of calls *)

Section CallCounts.
Context {U : Unicode} {C : Codec}.
Variable remote : Remote.
Variable question : string.
Variable config : Config.

Lemma getGeminiResponse_client (key : string) (w : Trace) :
  client_calls (snd (getGeminiResponse remote question key w)) = S (client_calls w) /\
  http_calls (snd (getGeminiResponse remote question key w)) = http_calls w.
Proof.
  unfold getGeminiResponse, bind, NewClient, GenerateContent.
  destruct (genai_NewClient remote w key); run_go; [now split|].
  destruct (genai_GenerateContent remote _ _ _) as [resp|e]; run_go; [|now split].
  split_first_text; now split.
Qed.

Lemma compareResponses_client (r1 r2 key : string) (w : Trace) :
  client_calls (snd (compareResponses remote r1 r2 key w)) = S (client_calls w) /\
  http_calls (snd (compareResponses remote r1 r2 key w)) = http_calls w.
Proof.
  unfold compareResponses, bind, NewClient, GenerateContent.
  destruct (genai_NewClient remote w key); run_go; [now split|].
  destruct (genai_GenerateContent remote _ _ _) as [resp|e]; run_go; [|now split].
  split_first_text; now split.
Qed.

Lemma getGroqResponse_client (jsonData : string) (w : Trace) :
  json_Marshal (groq_reqBody question) = Val jsonData ->
  http_NewRequest_error "POST" groq_url = None ->
  client_calls (snd (getGroqResponse remote question (GroqKey config) w)) = client_calls w /\
  http_calls (snd (getGroqResponse remote question (GroqKey config) w)) = S (http_calls w).
Proof.
  intros HJ HN.
  destruct (getGroqResponse_one_request remote question (GroqKey config) w)
    as (r & w' & E & H). rewrite E. rewrite HJ, HN in H. subst w'. now split.
Qed.

Lemma loop_body_counts (jsonData : string) (st : Locals) (w : Trace) :
  json_Marshal (groq_reqBody question) = Val jsonData ->
  http_NewRequest_error "POST" groq_url = None ->
  is_crashed (attempt_outcome remote question config w) = false ->
  let o := attempt_outcome remote question config w in
  let w' := snd (loop_body remote question config st w) in
  client_calls w' = (client_calls w + 1 + (if called_judge o then 1 else 0))%nat /\
  http_calls w' = (http_calls w + (if called_B o then 1 else 0))%nat.
Proof.
  intros HJ HN. cbv zeta. unfold loop_body, attempt_outcome, bind.
  destruct (getGeminiResponse_client (GeminiKey config) w) as [CA HA].
  destruct (getGeminiResponse remote question (GeminiKey config) w) as [[[a|e]|m|] w1];
    cbn [snd] in CA, HA; run_go; try discriminate.
  2:{ intros _. cbn. rewrite CA, HA. lia. }
  destruct (getGroqResponse_client jsonData w1 HJ HN) as [CB HB].
  destruct (getGroqResponse remote question (GroqKey config) w1) as [[[b|e]|m|] w2];
    cbn [snd] in CB, HB; run_go; try discriminate.
  2:{ intros _. cbn. rewrite CB, HB, CA, HA. lia. }
  destruct (compareResponses_client (Content a) (Content b) (GeminiKey config) w2)
    as [CJ HJu].
  destruct (compareResponses remote (Content a) (Content b) (GeminiKey config) w2)
    as [[[[|]|e]|m|] w3]; cbn [snd] in CJ, HJu; run_go; try discriminate;
    intros _; cbn; rewrite CJ, HJu, CB, HB, CA, HA; lia.
Qed.

Lemma count_of_cons (f : Attempt -> bool) (o : Attempt) (h : list Attempt) :
  count_of f (o :: h) = ((if f o then 1 else 0) + count_of f h)%nat.
Proof. unfold count_of. cbn. now destruct (f o). Qed.

Lemma retry_loop_counts (jsonData : string) (n : nat) :
  json_Marshal (groq_reqBody question) = Val jsonData ->
  http_NewRequest_error "POST" groq_url = None ->
  forall (fuel : nat) (st : Locals) (w : Trace),
    remaining config st = n -> (n < fuel)%nat ->
    let h := outcomes remote question config n st w in
    let w' := snd (retry_loop remote fuel question config st w) in
    forallb (fun o => negb (is_crashed o)) h = true ->
    client_calls w' = (client_calls w + List.length h + count_of called_judge h)%nat /\
    http_calls w' = (http_calls w + count_of called_B h)%nat.
Proof.
  intros HJ HN. cbv zeta.
  induction n as [|n IH]; intros [|fuel] st w Hn Hf; try lia.
  - rewrite retry_loop_exit by assumption. cbn. intros _. lia.
  - rewrite (retry_loop_enter _ _ _ _ _ _ n) by assumption. rewrite outcomes_S.
    cbn [forallb]. intros Hc. apply andb_true_iff in Hc as [Hc Hrest].
    apply negb_true_iff in Hc.
    destruct (loop_body_counts jsonData st w HJ HN Hc) as [CL HL].
    rewrite count_of_cons, count_of_cons. cbn [List.length].
    destruct (goes_on (attempt_outcome remote question config w)) eqn:G.
    + destruct (loop_body_goes_on remote question config st w G) as [w' E].
      rewrite E in *. cbn [snd] in CL, HL.
      destruct (IH fuel _ w' (remaining_next _ _ _ _ G Hn) ltac:(lia) Hrest) as [CI HI].
      rewrite CI, HI, CL, HL. lia.
    + unfold goes_on in G. rewrite Hc in G.
      destruct (attempt_outcome remote question config w) eqn:O; try discriminate.
      destruct (loop_body_agree remote question config st w a b O)
        as (w1 & w2 & w3 & _ & _ & _ & E).
      rewrite E in *. cbn [snd] in CL, HL. cbn [snd]. rewrite CL, HL.
      unfold count_of. cbn. lia.
Qed.

End CallCounts.

(** X23. In a run in which no call panics, a client is created once for
    every attempt and once more for every attempt that calls the judge:
    no client is used twice.  When the request body can be marshalled and
    the request created, Backend B is sent one request for every attempt
    in which Backend A answered, and no other. *)
Theorem processQuestion_exact_calls {U : Unicode} {C : Codec}
    (remote : Remote) (question : string) (config : Config) (w0 : Trace)
    (jsonData : string) :
  json_Marshal (groq_reqBody question) = Val jsonData ->
  http_NewRequest_error "POST" groq_url = None ->
  forallb (fun o => negb (is_crashed o)) (attempts remote question config w0) = true ->
  client_calls (snd (processQuestion remote question config w0)) =
    (client_calls w0 + List.length (attempts remote question config w0)
     + count_of called_judge (attempts remote question config w0))%nat /\
  http_calls (snd (processQuestion remote question config w0)) =
    (http_calls w0 + count_of called_B (attempts remote question config w0))%nat.
Proof.
  intros HJ HN Hc. unfold processQuestion, attempts in *.
  apply (retry_loop_counts remote question config jsonData
           (Z.to_nat (MaxRetries config)) HJ HN
           (S (Z.to_nat (MaxRetries config))) initial_locals w0);
    [apply remaining_initial | lia | exact Hc].
Qed.

Lemma processQuestion_exact_calls_witness :
  client_calls (snd (processQuestion (U:=bytes_only) (C:=plain_codec) scenario_stale
                       "2+2=?" (config_of 2) [])) = 3%nat /\
  http_calls (snd (processQuestion (U:=bytes_only) (C:=plain_codec) scenario_stale
                     "2+2=?" (config_of 2) [])) = 1%nat.
Proof.
  exact (processQuestion_exact_calls (U:=bytes_only) (C:=plain_codec) scenario_stale
           "2+2=?" (config_of 2) [] (groq_enhancedPrompt "2+2=?")
           eq_refl eq_refl eq_refl).
Defined.

(* ================================================================= *)
(** ** Reads that fail *)

(** X24. A read that fails with an error other than [EOF] is logged and
    loses nothing of what was typed before, but the text that came with
    the error is dropped: after entries that neither end the input nor say
    exit, the builder holds the lines read without error, in order. *)
Theorem read_errors_keep_the_lines {U : Unicode} {C : Codec} (remote : Remote)
    (config : Config) (entries rest : list ReadResult) :
  forallb goes_to_builder entries = true ->
  forall (questionBuilder : string) (w : Trace),
    read_loop remote config (entries ++ rest)%list questionBuilder w =
    read_loop remote config rest (questionBuilder ++ written (lines_read entries))
      (read_error_log entries ++ w)%list.
Proof.
  induction entries as [|[line [err|]] entries IH]; intros H qb w.
  - cbn. now rewrite string_app_nil.
  - cbn [forallb] in H. apply andb_true_iff in H as [Hx H].
    unfold goes_to_builder, is_end_of_input in Hx. cbn [snd] in Hx.
    cbn [app read_loop]. destruct (err =? "EOF")%string; [discriminate|].
    run_io. rewrite (IH H).
    unfold read_error_log, lines_read. cbn [flat_map snd app rev].
    now rewrite <- app_assoc.
  - cbn [forallb] in H. apply andb_true_iff in H as [Hx H].
    unfold goes_to_builder, is_exit_line, says_exit in Hx. cbn [snd fst] in Hx.
    cbn [app read_loop].
    destruct (TrimSpace (ToLower line) =? "exit")%string;
      [rewrite andb_false_r in Hx; discriminate|].
    rewrite (IH H). unfold read_error_log, lines_read.
    cbn [flat_map snd fst app written fold_right].
    now rewrite string_app_assoc.
Qed.

Lemma read_errors_keep_the_lines_witness :
  read_loop (U:=bytes_only) (C:=plain_codec) scenario_agree (config_of 1)
    (typing_with_read_error ++ [])%list "" [] =
  read_loop (U:=bytes_only) (C:=plain_codec) scenario_agree (config_of 1) []
    ("2+2=?" ++ nl ++ "A) 3 B) 4" ++ nl) [EvLog "Error reading input: read failed"].
Proof.
  exact (read_errors_keep_the_lines (U:=bytes_only) (C:=plain_codec) scenario_agree
           (config_of 1) typing_with_read_error [] eq_refl "" []).
Defined.
